(** * Query-fragment builders and response flatteners of the
      elasticsearch query helper (src/index.ts)

    The builders of [src/index.ts] create JavaScript objects and arrays and
    the flatteners read the objects of a search response.  Objects have an
    identity, so the embedding keeps a store: a value is a primitive or a
    reference into a heap of objects and arrays, and every function of the
    source is a computation over that heap which may raise a [TypeError].
    The source never assigns to a property of an existing object, and so the
    heap only ever grows at its end. *)

From stdpp Require Import gmap strings list fin_maps.
From Stdlib Require Import ZArith Ascii.

Local Open Scope string_scope.
Local Open Scope list_scope.
Local Set Warnings "-register-all".

(** ** Values *)

(** A JavaScript number: a double is NaN, an infinity, the negative zero, or
    [m * 2^e] for integers [m] and [e].  The code only tests numbers for
    truthiness and passes them on. *)
Inductive number : Type :=
  | NaN
  | NegZero
  | Infinity (negative : bool)
  | Dyadic (m e : Z).

Definition int (z : Z) : number := Dyadic z 0.

Definition loc := nat.

(** The values that occur in query fragments and in parsed responses.
    Functions, symbols and big integers do not. *)
Inductive value : Type :=
  | VUndefined
  | VNull
  | VBool (b : bool)
  | VNum (n : number)
  | VStr (s : string)
  | VRef (l : loc).

(** What a reference points to: an object with its own properties, or an
    array with its elements. *)
Inductive hobj : Type :=
  | HObj (props : gmap string value)
  | HArr (elems : list value).

Definition heap := list hobj.

Inductive error : Type :=
  | TypeError
  | DanglingReference.

(** JavaScript's ToBoolean: [value ? .. : ..], [!value], [filter(identity)]
    and fluent's [filter()] all go through it. *)
Definition num_truthy (n : number) : bool :=
  match n with
  | NaN | NegZero => false
  | Infinity _ => true
  | Dyadic m _ => negb (m =? 0)%Z
  end.

Definition truthy (v : value) : bool :=
  match v with
  | VUndefined | VNull => false
  | VBool b => b
  | VNum n => num_truthy n
  | VStr s => negb (String.eqb s EmptyString)
  | VRef _ => true
  end.

(** [x !== undefined] *)
Definition defined (v : value) : bool :=
  match v with
  | VUndefined => false
  | _ => true
  end.

(** [typeof v === 'number'] *)
Definition is_number (v : value) : bool :=
  match v with
  | VNum _ => true
  | _ => false
  end.

(** ** Reading and allocating *)

(** A computation that only reads the heap: property access. *)
Definition R (A : Type) : Type := heap -> error + A.

Global Instance R_ret : MRet R := fun A (a : A) _ => inr a.

Global Instance R_bind : MBind R := fun A B (f : A -> R B) (r : R A) h =>
  match r h with
  | inl e => inl e
  | inr a => f a h
  end.

(** A computation that may also allocate: the builders. *)
Definition M (A : Type) : Type := heap -> error + (A * heap).

Global Instance M_ret : MRet M := fun A (a : A) h => inr (a, h).

Global Instance M_bind : MBind M := fun A B (f : A -> M B) (m : M A) h =>
  match m h with
  | inl e => inl e
  | inr (a, h') => f a h'
  end.

Definition lift {A : Type} (r : R A) : M A :=
  fun h =>
    match r h with
    | inl e => inl e
    | inr a => inr (a, h)
    end.

(** A new object or array goes to the end of the heap. *)
Definition alloc (o : hobj) : M value :=
  fun h => inr (VRef (List.length h), h ++ [o]).

(** ** Property access *)

Definition digit (a : ascii) : option nat :=
  let n := nat_of_ascii a in
  if (48 <=? n)%nat && (n <=? 57)%nat then Some (n - 48) else None.

Fixpoint digits (s : string) (acc : nat) : option nat :=
  match s with
  | EmptyString => Some acc
  | String a s' =>
      match digit a with
      | Some d => digits s' (10 * acc + d)
      | None => None
      end
  end.

(** A property key is an array index when it is the canonical decimal form
    of a natural number: ["0"], or digits that do not start with a zero. *)
Definition array_index (k : string) : option nat :=
  match k with
  | EmptyString => None
  | String a s' =>
      if Ascii.eqb a "0"
      then (if String.eqb s' EmptyString then Some 0 else None)
      else digits k 0
  end.

Definition of_nat (n : nat) : value := VNum (int (Z.of_nat n)).

(** [o[k]] on a heap cell.  Members inherited from a prototype (methods,
    [constructor]) are not part of the model: a name that is not an own
    property reads as [undefined] here, which is what JavaScript does unless
    the name is a member of the prototype.  A statement about a name that is
    missing therefore says that the name is no such member
    ([inherited_name], [lacks]). *)
Definition get_own (o : hobj) (k : string) : value :=
  match o with
  | HObj props => default VUndefined (props !! k)
  | HArr elems =>
      if String.eqb k "length" then of_nat (List.length elems)
      else match array_index k with
           | Some i => default VUndefined (elems !! i)
           | None => VUndefined
           end
  end.

Definition char_at (s : string) (i : nat) : value :=
  match String.get i s with
  | Some a => VStr (String a EmptyString)
  | None => VUndefined
  end.

(** [v[k]] and [v.k]: reading a property of [undefined] or [null] is a
    TypeError; a primitive has no properties but a string's length and
    characters. *)
Definition get (v : value) (k : string) : R value :=
  fun h =>
    match v with
    | VUndefined | VNull => inl TypeError
    | VBool _ | VNum _ => inr VUndefined
    | VStr s =>
        if String.eqb k "length" then inr (of_nat (String.length s))
        else match array_index k with
             | Some i => inr (char_at s i)
             | None => inr VUndefined
             end
    | VRef l =>
        match h !! l with
        | Some o => inr (get_own o k)
        | None => inl DanglingReference
        end
    end.

(** [v?.k] *)
Definition get_opt (v : value) (k : string) : R value :=
  match v with
  | VUndefined | VNull => mret VUndefined
  | _ => get v k
  end.

(** The elements of an array, for [arr.filter] and [arr.length]; anything
    else has no such method and the call is a TypeError. *)
Definition elements (v : value) : R (list value) :=
  fun h =>
    match v with
    | VRef l =>
        match h !! l with
        | Some (HArr elems) => inr elems
        | Some (HObj _) => inl TypeError
        | None => inl DanglingReference
        end
    | _ => inl TypeError
    end.

(** ** Object and array literals *)

(** An object or array literal whose leaves are values already computed:
    [{ range: { [field]: { gte: value } } }]. *)
Inductive lit : Type :=
  | Val (v : value)
  | Obj (props : list (string * lit))
  | Arr (elems : list lit).

(** Evaluating a literal allocates one cell per object and per array.  The
    properties are evaluated from left to right, and a key that is written
    twice keeps its last value. *)
Fixpoint eval (e : lit) : M value :=
  match e with
  | Val v => mret v
  | Obj props =>
      m ← (fix eval_props (ps : list (string * lit)) (acc : gmap string value)
            : M (gmap string value) :=
            match ps with
            | [] => mret acc
            | (k, e') :: ps' => v ← eval e'; eval_props ps' (<[k:=v]> acc)
            end) props ∅;
      alloc (HObj m)
  | Arr elems =>
      vs ← (fix eval_elems (es : list lit) : M (list value) :=
             match es with
             | [] => mret []
             | e' :: es' => v ← eval e'; vs ← eval_elems es'; mret (v :: vs)
             end) elems;
      alloc (HArr vs)
  end.

(** [represents h e v]: in the heap [h] the value [v] is a structure of the
    shape [e]: the same keys, no others, and the same leaves. *)
Fixpoint represents (h : heap) (e : lit) (v : value) : Prop :=
  match e with
  | Val v' => v = v'
  | Obj props =>
      ∃ l m, v = VRef l ∧ h !! l = Some (HObj m) ∧
        dom m = list_to_set (props.*1) ∧
        (fix all (ps : list (string * lit)) : Prop :=
           match ps with
           | [] => True
           | (k, e') :: ps' =>
               (∃ v', m !! k = Some v' ∧ represents h e' v') ∧ all ps'
           end) props
  | Arr elems =>
      ∃ l vs, v = VRef l ∧ h !! l = Some (HArr vs) ∧
        (fix all (es : list lit) (vs : list value) : Prop :=
           match es, vs with
           | [], [] => True
           | e' :: es', v' :: vs' => represents h e' v' ∧ all es' vs'
           | _, _ => False
           end) elems vs
  end.

(** ** Fragment builders *)

(** [andOr(items, field)]: [identity] is the identity function, and so
    [items.filter(identity)] is a new array of the truthy items. *)
Definition andOr (items : value) (field : string) : M value :=
  xs ← lift (elements items);
  values ← alloc (HArr (List.filter truthy xs));
  vs ← lift (elements values);
  match List.length vs with
  | 0 => mret VUndefined
  | 1 => lift (get values "0")
  | _ => eval (Obj [("bool", Obj [(field, Val values)])])
  end.

Definition and (items : value) : M value := andOr items "must".

Definition or (items : value) : M value := andOr items "should".

Definition gte (field : string) (val : value) : M value :=
  if truthy val
  then eval (Obj [("range", Obj [(field, Obj [("gte", Val val)])])])
  else mret VUndefined.

Definition lte (field : string) (val : value) : M value :=
  if truthy val
  then eval (Obj [("range", Obj [(field, Obj [("lte", Val val)])])])
  else mret VUndefined.

Definition lt (field : string) (val : value) : M value :=
  if truthy val
  then eval (Obj [("range", Obj [(field, Obj [("lt", Val val)])])])
  else mret VUndefined.

Definition between (field : string) (from to : value) : M value :=
  if negb (truthy from) && negb (truthy to)
  then mret VUndefined
  else eval (Obj [("range",
               Obj [(field, Obj [("gte", Val from); ("lte", Val to)])])]).

Definition isIn (field : string) (values : value) : M value :=
  if negb (truthy values)
  then mret VUndefined
  else
    xs ← lift (elements values);
    definedValues ← alloc (HArr (List.filter defined xs));
    vs ← lift (elements definedValues);
    if truthy (of_nat (List.length vs))
    then eval (Obj [("terms", Obj [(field, Val definedValues)])])
    else mret VUndefined.

(** The file also holds an earlier revision of [isIn], which tests
    [values?.length] and passes the array on as it is. *)
Definition isIn_first_revision (field : string) (values : value) : M value :=
  n ← lift (get_opt values "length");
  if truthy n
  then eval (Obj [("terms", Obj [(field, Val values)])])
  else mret VUndefined.

Definition equals (field : string) (val : value) : M value :=
  values ← eval (Arr [Val val]);
  isIn field values.

Definition select (includes : value) : M value :=
  if truthy includes
  then eval (Obj [("includes", Val includes)])
  else mret VUndefined.

(** The operand of the spread in [topHits] is one of two object literals,
    [{ size }] or [{ from: size[0], size: size[1] }]; spreading it puts its
    properties first in the enclosing literal. *)
Definition paging (size : value) : M (list (string * lit)) :=
  if is_number size
  then mret [("size", Val size)]
  else
    skip ← lift (get size "0");
    count ← lift (get size "1");
    mret [("from", Val skip); ("size", Val count)].

(** [fields] is optional: a call without it passes [undefined]. *)
Definition topHits (size sort fields : value) : M value :=
  spread ← paging size;
  _source ← select fields;
  eval (Obj [("tops",
          Obj [("top_hits",
            Obj (spread ++ [("sort", Val sort); ("_source", Val _source)]))])]).

Definition lastHit (sort fields : value) : M value :=
  topHits (VNum (int 1)) sort fields.

(** [where]; the name is a keyword here. *)
Definition where_ (query : value) : M value :=
  if truthy query
  then eval (Obj [("query", Val query)])
  else eval (Obj []).

(** ** Lazy sequences *)

(** Modelled from the spec: the lazy-sequence utility (the package
    [@codibre/fluent-iterable]) is supplied from outside the repository.  The
    spec describes it as a pull-based chain of pure steps over a source that
    is already in memory: [fluent(iterable)] wraps a source, [filter()]
    without a predicate discards the falsy entries, [flatMap(f)] maps every
    entry to an iterable and yields the entries of each in turn, and [map(f)]
    maps every entry.  Nothing is read before the sequence is consumed. *)
Inductive fluent : Type :=
  | Fluent (source : value)
  | Filter (it : fluent)
  | FlatMap (f : value -> R value) (it : fluent)
  | Map (f : value -> R value) (it : fluent).

(** What a consumer sees of a sequence: the entries it is handed, in order,
    and the error that ends the iteration if one is raised. *)
Definition trace : Type := list value * option error.

Definition chars (s : string) : list value :=
  (fun a => VStr (String a EmptyString)) <$> String.list_ascii_of_string s.

(** [for (const x of v)]: arrays and strings can be iterated. *)
Definition iterate (v : value) : R (list value) :=
  fun h =>
    match v with
    | VStr s => inr (chars s)
    | VRef l =>
        match h !! l with
        | Some (HArr elems) => inr elems
        | Some (HObj _) => inl TypeError
        | None => inl DanglingReference
        end
    | _ => inl TypeError
    end.

(** One step of a chain over the entries [xs] that the step before it
    hands over before it ends with [e]: the callback runs on the entries in
    order, and the first error ends the iteration. *)
Fixpoint pull (h : heap) (f : value -> R (list value))
    (xs : list value) (e : option error) : trace :=
  match xs with
  | [] => ([], e)
  | x :: xs' =>
      match f x h with
      | inl e' => ([], Some e')
      | inr ys => let '(zs, e'') := pull h f xs' e in (ys ++ zs, e'')
      end
  end.

(** Consuming a sequence over the heap [h]. *)
Fixpoint run (h : heap) (it : fluent) : trace :=
  match it with
  | Fluent source =>
      match iterate source h with
      | inl e => ([], Some e)
      | inr xs => (xs, None)
      end
  | Filter it' =>
      let '(xs, e) := run h it' in (List.filter truthy xs, e)
  | FlatMap f it' =>
      let '(xs, e) := run h it' in pull h (fun x => y ← f x; iterate y) xs e
  | Map f it' =>
      let '(xs, e) := run h it' in pull h (fun x => y ← f x; mret [y]) xs e
  end.

(** ** Flatteners *)

(** [x => x[name].buckets] *)
Definition buckets_of (name : string) (x : value) : R value :=
  sub ← get x name;
  get sub "buckets".

(** The body of the loop: [result.filter().flatMap(x => x[name].buckets)]. *)
Definition descend (result : fluent) (name : string) : fluent :=
  FlatMap (buckets_of name) (Filter result).

(** The loop runs over the names of [others] from left to right. *)
Definition flatTermsAggregations (response : value) (firstAgg : string)
    (others : list string) : M fluent :=
  body ← lift (get response "body");
  aggregations ← lift (get_opt body "aggregations");
  if negb (truthy aggregations)
  then
    empty ← eval (Arr []);
    mret (Fluent empty)
  else
    agg ← lift (get aggregations firstAgg);
    buckets ← lift (get agg "buckets");
    mret (fold_left descend others (Fluent buckets)).

(** [x => x[aggName].hits.hits] *)
Definition hits_of (aggName : string) (x : value) : R value :=
  agg ← get x aggName;
  hits ← get agg "hits";
  get hits "hits".

(** [aggName] is optional and defaults to ['tops']. *)
Definition flatTopHitsAggregation (response : fluent)
    (aggName : option string) : fluent :=
  Map (fun x => get x "_source")
    (FlatMap (hits_of (default "tops" aggName)) (Filter response)).

(** ** Statements *)

(** [returns m h P]: from the heap [h] the computation [m] returns normally,
    leaves every object of [h] as it was, and its result and final heap
    satisfy [P]. *)
Definition returns {A : Type} (m : M A) (h : heap)
    (P : A -> heap -> Prop) : Prop :=
  ∃ a h', m h = inr (a, h') ∧ h `prefix_of` h' ∧ P a h'.

(** What [gte], [lte] and [lt] have in common, each for its boundary [key]:
    the call [m] on the value [v] returns [undefined] exactly for a falsy
    [v], and then allocates nothing; for a truthy [v] it returns
    [{ range: { [field]: { [key]: v } } }]. *)
Definition comparator_spec (field : string) (h : heap) (key : string)
    (m : M value) (v : value) : Prop :=
  returns m h (fun r h' =>
    (r = VUndefined ↔ truthy v = false) ∧
    (truthy v = false -> h' = h) ∧
    (truthy v = true ->
     represents h' (Obj [("range", Obj [(field, Obj [(key, Val v)])])]) r)).

(** An optional fragment, the element type [object | undefined] of
    [FilterList]. *)
Definition fragment (v : value) : Prop :=
  v = VUndefined ∨ ∃ l, v = VRef l.

Definition num (z : Z) : lit := Val (VNum (int z)).

(** The value [select(fields)] puts under [_source]. *)
Definition selected (fields : value) : lit :=
  if truthy fields then Obj [("includes", Val fields)] else Val VUndefined.

(** [{ _source: { id } }] *)
Definition hit (id : Z) : lit := Obj [("_source", Obj [("id", num id)])].

(** The body of the end-to-end scenario: two buckets under [byCategory],
    the first with one hit and the second with two. *)
Definition scenario_body : lit :=
  Obj [("aggregations",
    Obj [("byCategory",
      Obj [("buckets", Arr [
        Obj [("key", Val (VStr "a"));
             ("tops", Obj [("hits", Obj [("hits", Arr [hit 1])])])];
        Obj [("key", Val (VStr "b"));
             ("tops", Obj [("hits", Obj [("hits", Arr [hit 2; hit 3])])])]
      ])])])].

(** A response whose aggregation [byCategory] has no bucket. *)
Definition no_bucket_response : lit :=
  Obj [("body",
    Obj [("aggregations",
      Obj [("byCategory", Obj [("buckets", Arr [])])])])].

(** What [and] and [or] have in common, each for its list [key]: on the
    items [xs], of which [present] are there, the call [m] returns
    [undefined] when none is; the only one that is, the same reference to
    the same object; and [{ bool: { [key]: present } }] for two or more. *)
Definition combinator_spec (h : heap) (xs : list value) (key : string)
    (m : M value) : Prop :=
  let present := List.filter defined xs in
  returns m h (fun r h' =>
    (present = [] -> r = VUndefined) ∧
    (∀ x, present = [x] ->
       r = x ∧ ∀ l o, x = VRef l -> h !! l = Some o -> h' !! l = Some o) ∧
    (2 <= List.length present ->
     represents h' (Obj [("bool", Obj [(key, Arr (Val <$> present))])]) r)).

(** [{ terms: { [field]: [v] } }] *)
Definition terms_of (field : string) (v : value) : lit :=
  Obj [("terms", Obj [(field, Arr [Val v])])].

(** [has_buckets h response firstAgg bs]: the response has an aggregations
    section, and in it [firstAgg] is an aggregation whose bucket list is
    the array [bs]. *)
Definition has_buckets (h : heap) (response : value) (firstAgg : string)
    (bs : list value) : Prop :=
  ∃ body aggregations agg l,
    get response "body" h = inr body ∧
    get_opt body "aggregations" h = inr aggregations ∧
    truthy aggregations = true ∧
    get aggregations firstAgg h = inr agg ∧
    get agg "buckets" h = inr (VRef l) ∧
    h !! l = Some (HArr bs).

(** The iteration of a sequence ends with an error. *)
Definition fails (t : trace) : Prop := ∃ e, t.2 = Some e.

(** A response with the falsy bucket entries [null] and [0] beside a bucket
    that has no sub-aggregation. *)
Definition falsy_buckets_heap : heap :=
  [ HObj ∅;
    HArr [VNull; VRef 0; VNum (int 0)];
    HObj {["buckets" := VRef 1]};
    HObj {["byCategory" := VRef 2]};
    HObj {["aggregations" := VRef 3]};
    HObj {["body" := VRef 4]} ].

(** A response with two buckets under [byCategory]: the first has the
    sub-aggregation [byBrand] with one bucket, the second has none. *)
Definition half_nested_response : lit :=
  Obj [("body",
    Obj [("aggregations",
      Obj [("byCategory",
        Obj [("buckets", Arr [
          Obj [("key", Val (VStr "a"));
               ("byBrand", Obj [("buckets", Arr [Val (VStr "leaf")])])];
          Obj [("key", Val (VStr "b"))]
        ])])])])].

(** ** The other builders *)

(** [nested(path, query)]; [path] is a string by its type. *)
Definition nested (path : string) (query : value) : M value :=
  if truthy query
  then eval (Obj [("nested",
               Obj [("path", Val (VStr path)); ("query", Val query)])])
  else mret VUndefined.

(** [OrderType = 'asc' | 'desc'], and the string that stands for each. *)
Inductive OrderType : Type := asc | desc.

Definition order_value (order : OrderType) : value :=
  VStr (match order with asc => "asc" | desc => "desc" end).

(** [OrderField = [string, OrderType]] *)
Definition OrderField : Type := string * OrderType.

(** [orderBy(orders)]: [orders] is an array of pairs by its type, and the
    call only reads it; [orders.map] builds one object per pair, from left
    to right, and a new array of them. *)
Fixpoint order_objects (orders : list OrderField) : M (list value) :=
  match orders with
  | [] => mret []
  | (field, order) :: rest =>
      o ← eval (Obj [(field, Val (order_value order))]);
      os ← order_objects rest;
      mret (o :: os)
  end.

Definition orderBy (orders : list OrderField) : M value :=
  os ← order_objects orders;
  alloc (HArr os).







(** ** Running a query *)

(** The client is supplied by the caller: [search] stands for
    [client.search], which answers with a response it has allocated or
    fails; [await] hands the response, or the failure, to the function. *)
Section Queries.
Variable search : value -> M value.

Definition runGroupingQuery (params : value) (firstAgg : string)
    (others : list string) : M fluent :=
  response ← search params;
  flatTermsAggregations response firstAgg others.

Definition runTopHitsQuery (params : value) (firstAgg : string)
    (others : list string) : M fluent :=
  response ← search params;
  result ← flatTermsAggregations response firstAgg others;
  mret (flatTopHitsAggregation result None).

Definition runSimplesQuery (params : value) : M fluent :=
  response ← search params;
  body ← lift (get response "body");
  hits ← lift (get body "hits");
  hits' ← lift (get hits "hits");
  mret (Map (fun x => get x "_source") (Fluent hits')).
End Queries.

(** ** Statements about arrays, paths and queries *)

(** [not_array h v]: [v] is there in [h] and is not an array, so that it has
    no [filter] method. *)
Definition not_array (h : heap) (v : value) : Prop :=
  match v with
  | VRef l => ∃ props, h !! l = Some (HObj props)
  | _ => True
  end.

(** [valid h v]: a reference points into [h]. *)
Definition valid (h : heap) (v : value) : Prop :=
  match v with
  | VRef l => is_Some (h !! l)
  | _ => True
  end.

(** What [and] and [or] do on an array of any values [xs], each for its
    list [key]: the falsy items are dropped, and the list of a wrapper is
    the new array that [filter] has made. *)
Definition combinator_drops_falsy (h : heap) (xs : list value) (key : string)
    (m : M value) : Prop :=
  let kept := List.filter truthy xs in
  returns m h (fun r h' =>
    (r = VUndefined ↔ kept = []) ∧
    (∀ x, kept = [x] -> r = x) ∧
    (2 <= List.length kept ->
     h' !! List.length h = Some (HArr kept) ∧
     represents h' (Obj [("bool", Obj [(key, Val (VRef (List.length h)))])]) r)).

(** [and([gte(field, a), lte(field, b)])] *)
Definition and_gte_lte (field : string) (a b : value) : M value :=
  x ← gte field a;
  y ← lte field b;
  items ← eval (Arr [Val x; Val y]);
  and items.

(** [sub_buckets h name x ys]: the bucket [x] has the aggregation [name],
    whose bucket list is the array [ys]. *)
Definition sub_buckets (h : heap) (name : string) (x : value)
    (ys : list value) : Prop :=
  ∃ sub l,
    get x name h = inr sub ∧
    get sub "buckets" h = inr (VRef l) ∧
    h !! l = Some (HArr ys).

(** [walks h names xs leaves]: going down the path [names] from the buckets
    [xs], every truthy bucket has the aggregation of its level, and [leaves]
    are the buckets of the last level, in the order of their parents. *)
Fixpoint walks (h : heap) (names : list string) (xs leaves : list value)
    : Prop :=
  match names with
  | [] => leaves = xs
  | name :: rest =>
      ∃ yss, Forall2 (sub_buckets h name) (List.filter truthy xs) yss ∧
             walks h rest (concat yss) leaves
  end.

(** [hit_sources h name x sources]: the bucket [x] has the top-hits
    aggregation [name], whose hit list [x[name].hits.hits] is an array of
    envelopes, and [sources] are their [_source] properties in order
    ([undefined] for an envelope without one). *)
Definition hit_sources (h : heap) (name : string) (x : value)
    (sources : list value) : Prop :=
  ∃ agg hits l envelopes,
    get x name h = inr agg ∧
    get agg "hits" h = inr hits ∧
    get hits "hits" h = inr (VRef l) ∧
    h !! l = Some (HArr envelopes) ∧
    Forall2 (fun envelope source => get envelope "_source" h = inr source)
      envelopes sources.

(** A response with two levels of buckets, [byCategory] and in it
    [byBrand]; the second bucket of the first level is [null]. *)
Definition two_level_heap : heap :=
  [ HObj {["brand" := VStr "x"]};
    HObj {["brand" := VStr "y"]};
    HArr [VRef 0; VRef 1];
    HObj {["buckets" := VRef 2]};
    HObj {["byBrand" := VRef 3]};
    HArr [VRef 1];
    HObj {["buckets" := VRef 5]};
    HObj {["byBrand" := VRef 6]};
    HArr [VRef 4; VNull; VRef 7];
    HObj {["buckets" := VRef 8]};
    HObj {["byCategory" := VRef 9]};
    HObj {["aggregations" := VRef 10]};
    HObj {["body" := VRef 11]} ].

(** Two buckets with top hits; the second hit of the second bucket has no
    [_source], and a [null] entry stands between the buckets. *)
Definition top_hits_heap : heap :=
  [ HObj {["id" := VNum (int 1)]};
    HObj {["_source" := VRef 0]};
    HObj {["_score" := VNum (int 7)]};
    HArr [VRef 1];
    HArr [VRef 1; VRef 2];
    HObj {["hits" := VRef 3]};
    HObj {["hits" := VRef 4]};
    HObj {["hits" := VRef 5]};
    HObj {["hits" := VRef 6]};
    HObj {["tops" := VRef 7]};
    HObj {["tops" := VRef 8]};
    HArr [VRef 9; VNull; VRef 10] ].

(** The object [orderBy] makes of a pair, as a shape and as a cell. *)
Definition order_shape (fo : OrderField) : lit :=
  Obj [(fo.1, Val (order_value fo.2))].

Definition order_cell (fo : OrderField) : hobj :=
  HObj {[fo.1 := order_value fo.2]}.



(** The response of a client: the buckets of [top_hits_heap] under
    [body.aggregations.byCategory], and the hit list of the second bucket
    again under [body.hits]. *)
Definition response_heap : heap :=
  top_hits_heap ++
  [ HObj {["buckets" := VRef 11]};
    HObj {["byCategory" := VRef 12]};
    HObj (<["aggregations" := VRef 13]> {["hits" := VRef 6]});
    HObj {["body" := VRef 14]} ].

(** ** Names that are missing *)

(** The members of [Object.prototype], which every plain object inherits:
    reading one of these names gives the inherited member, not
    [undefined]. *)
Definition object_prototype_names : list string :=
  [ "constructor"; "__defineGetter__"; "__defineSetter__"; "hasOwnProperty";
    "__lookupGetter__"; "__lookupSetter__"; "isPrototypeOf";
    "propertyIsEnumerable"; "toString"; "valueOf"; "__proto__";
    "toLocaleString" ].

Definition inherited_name (k : string) : bool :=
  existsb (String.eqb k) object_prototype_names.

(** [lacks h x name]: [x] is a plain object and [x[name]] is [undefined],
    the name being neither an own property of [x] nor inherited. *)
Definition lacks (h : heap) (x : value) (name : string) : Prop :=
  inherited_name name = false ∧
  ∃ l props, x = VRef l ∧ h !! l = Some (HObj props) ∧ props !! name = None.

(** The response [half_nested_response], cell by cell. *)
Definition half_nested_heap : heap :=
  [ HArr [VStr "leaf"];
    HObj {["buckets" := VRef 0]};
    HObj (<["key" := VStr "a"]> {["byBrand" := VRef 1]});
    HObj {["key" := VStr "b"]};
    HArr [VRef 2; VRef 3];
    HObj {["buckets" := VRef 4]};
    HObj {["byCategory" := VRef 5]};
    HObj {["aggregations" := VRef 6]};
    HObj {["body" := VRef 7]} ].

(** * Proofs *)

(** ** The heap *)

Lemma lookup_new (h os : heap) (i : nat) :
  (h ++ os) !! (List.length h + i) = os !! i.
Proof. rewrite lookup_app_r by lia. f_equal. lia. Qed.

Lemma lookup_new_0 (h os : heap) :
  (h ++ os) !! (List.length h) = os !! 0.
Proof. rewrite <- (lookup_new h os 0). by rewrite Nat.add_0_r. Qed.

Lemma lookup_old (h os : heap) (l : loc) (o : hobj) :
  h !! l = Some o -> (h ++ os) !! l = Some o.
Proof. intros Hl. by apply lookup_app_l_Some. Qed.

(** Locations of new cells become [length h + i], the new cells one list. *)
Ltac heap_norm :=
  rewrite ?length_app, <- ?app_assoc; simpl;
  rewrite <- ?Nat.add_assoc; simpl.

Ltac heap_lookup :=
  first [ rewrite lookup_new_0; reflexivity
        | rewrite lookup_new; reflexivity
        | apply lookup_old; eassumption ].

Ltac map_lookup :=
  first [ apply lookup_insert_eq
        | rewrite lookup_insert_ne by (intros ?; discriminate); map_lookup ].

(** Checks a value against a shape, cell by cell. *)
Ltac shape :=
  repeat match goal with
  | |- represents _ _ _ => progress simpl
  | |- ∃ (l : loc) (m : gmap string value), _ =>
      eexists _, _; split; [reflexivity|]; split; [heap_lookup|];
      split; [rewrite ?dom_insert_L, ?dom_empty_L; set_solver|]
  | |- ∃ (l : loc) (vs : list value), _ =>
      eexists _, _; split; [reflexivity|]; split; [heap_lookup|]
  | |- ∃ v' : value, _ !! _ = Some v' ∧ _ =>
      eexists; split; [map_lookup|]
  | |- _ ∧ _ => split
  | |- True => exact I
  | |- @eq value _ _ => reflexivity
  end.

(** Runs a builder that is a chain of allocations. *)
Ltac run_builder :=
  cbv [eval mbind M_bind mret M_ret alloc lift];
  eexists _, _; split; [reflexivity|]; split;
  [ rewrite <- ?app_assoc; try apply prefix_app_r; reflexivity
  | heap_norm ].

Lemma undefined_no_object (h : heap) (props : list (string * lit)) :
  ¬ represents h (Obj props) VUndefined.
Proof. simpl. intros (l & m & Hl & _). discriminate. Qed.

(** ** Range comparators *)

Section Range.
Variables (field : string) (h : heap).

Lemma comparator_truthy (key : string) (v : value) :
  truthy v = true ->
  returns
    (if truthy v
     then eval (Obj [("range", Obj [(field, Obj [(key, Val v)])])])
     else mret VUndefined) h
    (fun r h' =>
       r ≠ VUndefined ∧
       represents h' (Obj [("range", Obj [(field, Obj [(key, Val v)])])]) r).
Proof.
  intros ->. run_builder. split; [discriminate|]. shape.
Qed.

Lemma comparator_ok (key : string) (v : value) :
  comparator_spec field h key
    (if truthy v
     then eval (Obj [("range", Obj [(field, Obj [(key, Val v)])])])
     else mret VUndefined) v.
Proof.
  unfold comparator_spec. destruct (truthy v) eqn:Hv.
  - destruct (comparator_truthy key v Hv) as (r & h' & Hrun & Hpre & Hne & Hr).
    rewrite Hv in Hrun. exists r, h'. repeat split; try done.
  - exists VUndefined, h. repeat split; try done.
Qed.
End Range.

(** C6: for every field and value, each of [gte], [lte] and [lt] returns
    [undefined] if and only if the value is falsy (and then allocates
    nothing); for a truthy value it returns a range fragment keyed by the
    field whose only boundary key is [gte], [lte] or [lt], set to the
    value. *)
Theorem comparators_absent_iff_falsy (field : string) (v : value) (h : heap) :
  comparator_spec field h "gte" (gte field v) v ∧
  comparator_spec field h "lte" (lte field v) v ∧
  comparator_spec field h "lt" (lt field v) v.
Proof. repeat split; apply comparator_ok. Qed.

(** ** [between] *)

Lemma between_absent (field : string) (from to : value) (h : heap) :
  truthy from = false -> truthy to = false ->
  between field from to h = inr (VUndefined, h).
Proof. intros Hf Ht. unfold between. rewrite Hf, Ht. reflexivity. Qed.

Lemma between_present (field : string) (from to : value) (h : heap) :
  truthy from = true ∨ truthy to = true ->
  returns (between field from to) h (fun r h' =>
    represents h'
      (Obj [("range", Obj [(field, Obj [("gte", Val from); ("lte", Val to)])])])
      r).
Proof.
  intros Hor. unfold between.
  assert (negb (truthy from) && negb (truthy to) = false) as ->.
  { destruct Hor as [-> | ->]; [reflexivity | apply andb_false_r]. }
  run_builder. shape.
Qed.

(** C5, as the spec has it, fails for a boundary that is given but falsy:
    [between('price', 0, undefined)] is [undefined], not a range fragment
    with [gte: 0]. *)
Lemma between_zero_is_absent :
  defined (VNum (int 0)) = true ∧
  between "price" (VNum (int 0)) VUndefined [] = inr (VUndefined, []) ∧
  ¬ represents []
      (Obj [("range",
         Obj [("price", Obj [("gte", num 0); ("lte", Val VUndefined)])])])
      VUndefined.
Proof.
  split; [reflexivity|]. split; [reflexivity|]. apply undefined_no_object.
Qed.

(** C5, amended: [between(field, from, to)] returns [undefined] when both
    boundaries are falsy, as in [between(field, undefined, undefined)]; as
    soon as one of them is truthy it returns a range fragment with both keys
    present, [gte] set to [from] and [lte] set to [to], so that a boundary
    that is [undefined] is there with the value [undefined]. *)
Theorem between_cases (field : string) (v : value) (h : heap) :
  truthy v = true ->
  between field VUndefined VUndefined h = inr (VUndefined, h) ∧
  returns (between field v VUndefined) h (fun r h' =>
    represents h'
      (Obj [("range",
         Obj [(field, Obj [("gte", Val v); ("lte", Val VUndefined)])])]) r) ∧
  returns (between field VUndefined v) h (fun r h' =>
    represents h'
      (Obj [("range",
         Obj [(field, Obj [("gte", Val VUndefined); ("lte", Val v)])])]) r) ∧
  (∀ from to, truthy from = true ∨ truthy to = true ->
     returns (between field from to) h (fun r h' =>
       represents h'
         (Obj [("range",
            Obj [(field, Obj [("gte", Val from); ("lte", Val to)])])]) r)) ∧
  (∀ from to, truthy from = false -> truthy to = false ->
     between field from to h = inr (VUndefined, h)).
Proof.
  intros Hv. repeat split.
  - apply between_present. by left.
  - apply between_present. by right.
  - intros from to. apply between_present.
  - intros from to. apply between_absent.
Qed.

Lemma between_cases_witness :
  between "price" VUndefined VUndefined [] = inr (VUndefined, []) ∧
  returns (between "price" (VNum (int 5)) VUndefined) [] (fun r h' =>
    represents h'
      (Obj [("range",
         Obj [("price", Obj [("gte", num 5); ("lte", Val VUndefined)])])]) r).
Proof.
  destruct (between_cases "price" (VNum (int 5)) []) as (H0 & H1 & _);
    [reflexivity|].
  split; [exact H0 | exact H1].
Defined.

(** ** [where] *)

(** C7: [where(undefined)] returns a new empty object, one with no [query]
    key, and [where(fragment)] for a fragment that is there returns
    [{ query: fragment }]. *)
Theorem where_envelope (query : value) (h : heap) :
  truthy query = true ->
  returns (where_ VUndefined) h (fun r h' => represents h' (Obj []) r) ∧
  returns (where_ query) h (fun r h' =>
    represents h' (Obj [("query", Val query)]) r).
Proof.
  intros Hq. unfold where_. rewrite Hq. simpl truthy. cbv iota. split.
  - run_builder. shape.
  - run_builder. shape.
Qed.

Lemma where_envelope_witness :
  returns (where_ VUndefined) [HObj ∅] (fun r h' => represents h' (Obj []) r) ∧
  returns (where_ (VRef 0)) [HObj ∅] (fun r h' =>
    represents h' (Obj [("query", Val (VRef 0))]) r).
Proof. apply (where_envelope (VRef 0) [HObj ∅]). reflexivity. Defined.

(** ** Arrays *)

Lemma bind_run {A B : Type} (m : M A) (f : A -> M B) (h : heap) :
  (x ← m; f x) h =
  match m h with
  | inl e => inl e
  | inr (a, h') => f a h'
  end.
Proof. reflexivity. Qed.

Lemma bind_lift {A B : Type} (r : R A) (f : A -> M B) (h : heap) (a : A) :
  r h = inr a -> (x ← lift r; f x) h = f a h.
Proof. intros Hr. rewrite bind_run. unfold lift. by rewrite Hr. Qed.

Lemma bind_lift_error {A B : Type} (r : R A) (f : A -> M B) (h : heap)
    (e : error) :
  r h = inl e -> (x ← lift r; f x) h = inl e.
Proof. intros Hr. rewrite bind_run. unfold lift. by rewrite Hr. Qed.

Lemma get_ref_read (h : heap) (l : loc) (o : hobj) (k : string) :
  h !! l = Some o -> get (VRef l) k h = inr (get_own o k).
Proof. intros Hl. unfold get. by rewrite Hl. Qed.

Lemma elements_array (h : heap) (l : loc) (xs : list value) :
  h !! l = Some (HArr xs) -> lift (elements (VRef l)) h = inr (xs, h).
Proof. intros Hl. unfold lift, elements. by rewrite Hl. Qed.

Lemma elements_new (h : heap) (xs : list value) :
  lift (elements (VRef (List.length h))) (h ++ [HArr xs])
  = inr (xs, h ++ [HArr xs]).
Proof. apply elements_array. by rewrite lookup_new_0. Qed.

Lemma represents_values (h : heap) (l : loc) (vs : list value) :
  h !! l = Some (HArr vs) -> represents h (Arr (Val <$> vs)) (VRef l).
Proof.
  intros Hl. simpl. exists l, vs. split; [done|]. split; [done|].
  clear Hl. induction vs as [|v vs IH]; simpl; [done|]. by split.
Qed.

Lemma length_truthy (vs : list value) :
  truthy (of_nat (List.length vs)) = match vs with [] => false | _ => true end.
Proof. by destruct vs. Qed.

(** ** [isIn] and [equals] *)

Lemma isIn_array (field : string) (l : loc) (xs : list value) (h : heap) :
  h !! l = Some (HArr xs) ->
  returns (isIn field (VRef l)) h (fun r h' =>
    (List.filter defined xs = [] -> r = VUndefined) ∧
    (List.filter defined xs ≠ [] ->
     represents h'
       (Obj [("terms", Obj [(field, Arr (Val <$> List.filter defined xs))])])
       r)).
Proof.
  intros Hl. unfold returns, isIn.
  change (negb (truthy (VRef l))) with false. cbv iota.
  rewrite bind_run, (elements_array h l xs Hl).
  rewrite bind_run. unfold alloc at 1. rewrite bind_run, elements_new.
  rewrite length_truthy.
  destruct (List.filter defined xs) as [|v vs] eqn:Hvs.
  - exists VUndefined, (h ++ [HArr []]). split; [done|].
    split; [by apply prefix_app_r|]. by split.
  - remember (Arr (Val <$> v :: vs)) as a eqn:Ha.
    run_builder. split; [done|]. intros _. shape. subst a.
    apply represents_values. rewrite lookup_new_0. reflexivity.
Qed.

Lemma returns_impl {A : Type} (m : M A) (h : heap) (P Q : A -> heap -> Prop) :
  returns m h P -> (∀ a h', h `prefix_of` h' -> P a h' -> Q a h') ->
  returns m h Q.
Proof.
  intros (a & h' & Hrun & Hpre & HP) HPQ. exists a, h'. repeat split; auto.
Qed.

Lemma prefix_lookup (h h' : heap) (l : loc) (o : hobj) :
  h `prefix_of` h' -> h !! l = Some o -> h' !! l = Some o.
Proof. intros [os ->] Hl. by apply lookup_old. Qed.

Lemma filter_defined_single (v : value) :
  defined v = true -> List.filter defined [v] = [v].
Proof. intros Hv. simpl. by rewrite Hv. Qed.

(** C4: [isIn(field, undefined)] and [isIn(field, [])] return [undefined];
    so does [isIn(field, [undefined])], whose only entry is filtered out
    before the length is tested; and [isIn(field, [v])] for a defined [v]
    returns the terms fragment over the filtered array [[v]]. *)
Theorem isIn_cases (field : string) (v : value) (l : loc) (h : heap) :
  defined v = true ->
  isIn field VUndefined h = inr (VUndefined, h) ∧
  (h !! l = Some (HArr []) ->
   returns (isIn field (VRef l)) h (fun r _ => r = VUndefined)) ∧
  (h !! l = Some (HArr [VUndefined]) ->
   returns (isIn field (VRef l)) h (fun r _ => r = VUndefined)) ∧
  (h !! l = Some (HArr [v]) ->
   returns (isIn field (VRef l)) h (fun r h' =>
     represents h' (terms_of field v) r)).
Proof.
  intros Hv. split; [reflexivity|]. repeat split; intros Hl.
  - eapply returns_impl; [by apply isIn_array|]. simpl. intros r h' _ [H _]. auto.
  - eapply returns_impl; [by apply isIn_array|]. simpl. intros r h' _ [H _]. auto.
  - eapply returns_impl; [by apply isIn_array|].
    rewrite (filter_defined_single v Hv). intros r h' _ [_ H]. by apply H.
Qed.

Lemma isIn_cases_witness :
  isIn "tag" VUndefined [HArr [VStr "x"]] = inr (VUndefined, [HArr [VStr "x"]]) ∧
  returns (isIn "tag" (VRef 0)) [HArr [VStr "x"]] (fun r h' =>
    represents h' (terms_of "tag" (VStr "x")) r).
Proof.
  destruct (isIn_cases "tag" (VStr "x") 0 [HArr [VStr "x"]]) as (H0 & _ & _ & H3);
    [reflexivity|].
  split; [exact H0 | apply H3; reflexivity].
Defined.

(** The earlier revision of [isIn] kept an [undefined] entry: on
    [[undefined]] it returned the terms fragment over that very array. *)
Lemma first_revision_kept_undefined (field : string) (l : loc) (h : heap) :
  h !! l = Some (HArr [VUndefined]) ->
  returns (isIn_first_revision field (VRef l)) h (fun r h' =>
    represents h' (Obj [("terms", Obj [(field, Val (VRef l))])]) r).
Proof.
  intros Hl. unfold returns, isIn_first_revision.
  rewrite (bind_lift _ _ h (of_nat 1));
    [|exact (get_ref_read h l _ "length" Hl)].
  change (truthy (of_nat 1)) with true. cbv iota. run_builder. shape.
Qed.

Lemma equals_run (field : string) (v : value) (h : heap) :
  equals field v h = isIn field (VRef (List.length h)) (h ++ [HArr [v]]).
Proof. reflexivity. Qed.

Lemma equals_array (field : string) (v : value) (h : heap) :
  returns (equals field v) h (fun r h' =>
    (List.filter defined [v] = [] -> r = VUndefined) ∧
    (List.filter defined [v] ≠ [] ->
     represents h'
       (Obj [("terms", Obj [(field, Arr (Val <$> List.filter defined [v]))])])
       r)).
Proof.
  destruct (isIn_array field (List.length h) [v] (h ++ [HArr [v]]))
    as (r & h' & Hrun & Hpre & HP).
  { by rewrite lookup_new_0. }
  exists r, h'. split; [by rewrite equals_run|]. split; [|done].
  etrans; [|exact Hpre]. by apply prefix_app_r.
Qed.

(** C8: [equals(field, v)] is [isIn(field, [v])], the array being built by
    the call.  So it returns [undefined] for [v = undefined] and the terms
    fragment over [[v]] for a defined [v], and that is what [isIn] returns
    for any array that holds just [v]. *)
Theorem equals_is_isIn_singleton (field : string) (v : value) (h : heap) :
  equals field v = (values ← eval (Arr [Val v]); isIn field values) ∧
  returns (equals field v) h (fun r1 h1 =>
    (v = VUndefined -> r1 = VUndefined) ∧
    (defined v = true -> represents h1 (terms_of field v) r1) ∧
    ∀ l, h !! l = Some (HArr [v]) ->
      returns (isIn field (VRef l)) h (fun r2 h2 =>
        (r1 = VUndefined ∧ r2 = VUndefined) ∨
        (represents h1 (terms_of field v) r1 ∧
         represents h2 (terms_of field v) r2))).
Proof.
  split; [reflexivity|].
  eapply returns_impl; [apply equals_array|]. intros r1 h1 _ [Hnone Hsome].
  destruct (defined v) eqn:Hv.
  - pose proof (filter_defined_single v Hv) as Hf.
    rewrite Hf in Hsome. specialize (Hsome ltac:(done)).
    split; [by intros ->|]. split; [done|]. intros l Hl.
    eapply returns_impl; [by apply isIn_array|]. rewrite Hf.
    intros r2 h2 _ [_ H2]. right. split; [done|]. by apply H2.
  - assert (List.filter defined [v] = []) as Hf by (simpl; by rewrite Hv).
    specialize (Hnone Hf). split; [done|]. split; [done|]. intros l Hl.
    eapply returns_impl; [by apply isIn_array|]. rewrite Hf.
    intros r2 h2 _ [H2 _]. left. auto.
Qed.

(** ** [and] and [or] *)

Lemma first_of_new (h : heap) (x : value) (xs : list value) :
  lift (get (VRef (List.length h)) "0") (h ++ [HArr (x :: xs)])
  = inr (x, h ++ [HArr (x :: xs)]).
Proof. unfold lift, get. rewrite lookup_new_0. reflexivity. Qed.

Lemma andOr_array (field : string) (l : loc) (xs : list value) (h : heap) :
  h !! l = Some (HArr xs) ->
  returns (andOr (VRef l) field) h (fun r h' =>
    match List.filter truthy xs with
    | [] => r = VUndefined
    | [x] => r = x
    | vs => represents h' (Obj [("bool", Obj [(field, Arr (Val <$> vs))])]) r
    end).
Proof.
  intros Hl. unfold returns, andOr.
  rewrite bind_run, (elements_array h l xs Hl).
  rewrite bind_run. unfold alloc at 1. rewrite bind_run, elements_new.
  destruct (List.filter truthy xs) as [|x [|y vs]] eqn:Hvs; cbn [List.length].
  - exists VUndefined, (h ++ [HArr []]). split; [done|].
    split; [by apply prefix_app_r | done].
  - rewrite first_of_new. exists x, (h ++ [HArr [x]]). split; [done|].
    split; [by apply prefix_app_r | done].
  - remember (Arr (Val <$> x :: y :: vs)) as a eqn:Ha.
    run_builder. shape. subst a. apply represents_values. heap_lookup.
Qed.

Lemma fragment_truthy (v : value) : fragment v -> truthy v = defined v.
Proof. by intros [-> | [l ->]]. Qed.

Lemma filter_fragments (xs : list value) :
  Forall fragment xs -> List.filter truthy xs = List.filter defined xs.
Proof.
  induction 1 as [|x xs Hx _ IH]; [done|]. simpl.
  by rewrite (fragment_truthy x Hx), IH.
Qed.

Lemma andOr_fragments (key : string) (l : loc) (xs : list value) (h : heap) :
  h !! l = Some (HArr xs) -> Forall fragment xs ->
  combinator_spec h xs key (andOr (VRef l) key).
Proof.
  intros Hl Hxs. unfold combinator_spec.
  eapply returns_impl; [by apply andOr_array|]. simpl.
  rewrite (filter_fragments xs Hxs). intros r h' Hpre.
  destruct (List.filter defined xs) as [|x [|y vs]]; intros Hr.
  - repeat split; [done..|]. simpl. lia.
  - split; [done|]. split; [|simpl; lia]. intros x' [= <-].
    split; [done|]. intros l0 o _ Ho. by apply prefix_lookup with h.
  - by repeat split.
Qed.

(** C2: on every list of optional fragments, [and] and [or] return
    [undefined] when no element is there; the only element that is there,
    itself (the same reference, and the object it points to is untouched),
    when there is one; and for two or more a bool wrapper whose [must] list
    (for [and]) or [should] list (for [or]) holds the elements that are
    there, in their order. *)
Theorem and_or_cases (l : loc) (xs : list value) (h : heap) :
  h !! l = Some (HArr xs) -> Forall fragment xs ->
  combinator_spec h xs "must" (and (VRef l)) ∧
  combinator_spec h xs "should" (or (VRef l)).
Proof. intros Hl Hxs. split; by apply andOr_fragments. Qed.

Lemma and_or_cases_witness :
  combinator_spec [HObj ∅; HArr [VUndefined; VRef 0]] [VUndefined; VRef 0]
    "must" (and (VRef 1)) ∧
  combinator_spec [HObj ∅; HArr [VUndefined; VRef 0]] [VUndefined; VRef 0]
    "should" (or (VRef 1)).
Proof.
  apply (and_or_cases 1 [VUndefined; VRef 0]
           [HObj ∅; HArr [VUndefined; VRef 0]]).
  - reflexivity.
  - constructor; [left; reflexivity|].
    constructor; [right; exists 0; reflexivity|]. constructor.
Defined.

(** ** [topHits] and [lastHit] *)

Lemma get_ref (h : heap) (l : loc) (o : hobj) (k : string) :
  h !! l = Some o -> lift (get (VRef l) k) h = inr (get_own o k, h).
Proof. intros Hl. unfold lift, get. by rewrite Hl. Qed.

Lemma paging_pair (l : loc) (skip count : value) (h : heap) :
  h !! l = Some (HArr [skip; count]) ->
  paging (VRef l) h = inr ([("from", Val skip); ("size", Val count)], h).
Proof.
  intros Hl. unfold paging. change (is_number (VRef l)) with false. cbv iota.
  rewrite bind_run, (get_ref h l _ "0" Hl). cbv beta iota.
  rewrite bind_run, (get_ref h l _ "1" Hl). reflexivity.
Qed.

Lemma paging_number (n : number) (h : heap) :
  paging (VNum n) h = inr ([("size", Val (VNum n))], h).
Proof. reflexivity. Qed.

Lemma topHits_shape (size sort fields : value)
    (spread : list (string * lit)) (h : heap) :
  paging size h = inr (spread, h) ->
  (spread = [("size", Val size)] ∨
   ∃ skip count, spread = [("from", Val skip); ("size", Val count)]) ->
  returns (topHits size sort fields) h (fun r h' =>
    represents h'
      (Obj [("tops",
         Obj [("top_hits",
           Obj (spread ++ [("sort", Val sort); ("_source", selected fields)]))])])
      r).
Proof.
  intros Hp Hspread. unfold returns, topHits, selected, select.
  rewrite bind_run, Hp.
  destruct Hspread as [-> | (skip & count & ->)];
    destruct (truthy fields); simpl app; run_builder; shape.
Qed.

(** C9: a [size] that is a pair of two numbers puts [from], the first of
    them, and [size], the second, into [tops.top_hits]; a [size] that is a
    number puts [size] alone; both beside [sort] and [_source]; and
    [lastHit(sort, fields)] is [topHits(1, sort, fields)]. *)
Theorem topHits_paging (skip count n : number) (l : loc)
    (sort fields : value) (h : heap) :
  h !! l = Some (HArr [VNum skip; VNum count]) ->
  returns (topHits (VRef l) sort fields) h (fun r h' =>
    represents h'
      (Obj [("tops",
         Obj [("top_hits",
           Obj [("from", Val (VNum skip)); ("size", Val (VNum count));
                ("sort", Val sort); ("_source", selected fields)])])])
      r) ∧
  returns (topHits (VNum n) sort fields) h (fun r h' =>
    represents h'
      (Obj [("tops",
         Obj [("top_hits",
           Obj [("size", Val (VNum n));
                ("sort", Val sort); ("_source", selected fields)])])])
      r) ∧
  lastHit sort fields = topHits (VNum (int 1)) sort fields.
Proof.
  intros Hl. split; [|split; [|reflexivity]].
  - apply (topHits_shape (VRef l) sort fields
             [("from", Val (VNum skip)); ("size", Val (VNum count))] h).
    + by apply paging_pair.
    + right. by exists (VNum skip), (VNum count).
  - apply (topHits_shape (VNum n) sort fields [("size", Val (VNum n))] h).
    + apply paging_number.
    + by left.
Qed.

Lemma topHits_paging_witness :
  returns (topHits (VRef 0) (VRef 1) VUndefined)
    [HArr [VNum (int 20); VNum (int 10)]; HArr []] (fun r h' =>
    represents h'
      (Obj [("tops",
         Obj [("top_hits",
           Obj [("from", num 20); ("size", num 10);
                ("sort", Val (VRef 1)); ("_source", Val VUndefined)])])])
      r).
Proof.
  apply (topHits_paging (int 20) (int 10) (int 1) 0 (VRef 1) VUndefined
           [HArr [VNum (int 20); VNum (int 10)]; HArr []]).
  reflexivity.
Defined.

(** ** The bucket-path walker *)

Section Walker.
Variables (response : value) (firstAgg : string) (h : heap).
Variables (body aggregations : value).
Hypothesis Hbody : get response "body" h = inr body.
Hypothesis Haggs : get_opt body "aggregations" h = inr aggregations.

Lemma walker_absent (others : list string) :
  truthy aggregations = false ->
  flatTermsAggregations response firstAgg others h
  = inr (Fluent (VRef (List.length h)), h ++ [HArr []]).
Proof.
  intros Hf. unfold flatTermsAggregations.
  rewrite (bind_lift _ _ h body Hbody), (bind_lift _ _ h aggregations Haggs).
  by rewrite Hf.
Qed.

Lemma walker_present (others : list string) :
  truthy aggregations = true ->
  flatTermsAggregations response firstAgg others h
  = (agg ← lift (get aggregations firstAgg);
     buckets ← lift (get agg "buckets");
     mret (fold_left descend others (Fluent buckets))) h.
Proof.
  intros Ht. unfold flatTermsAggregations.
  rewrite (bind_lift _ _ h body Hbody), (bind_lift _ _ h aggregations Haggs).
  by rewrite Ht.
Qed.

Lemma walker_found (others : list string) (agg buckets : value) :
  truthy aggregations = true ->
  get aggregations firstAgg h = inr agg ->
  get agg "buckets" h = inr buckets ->
  flatTermsAggregations response firstAgg others h
  = inr (fold_left descend others (Fluent buckets), h).
Proof.
  intros Ht Hagg Hb. rewrite (walker_present others Ht).
  by rewrite (bind_lift _ _ h agg Hagg), (bind_lift _ _ h buckets Hb).
Qed.

Lemma walker_missing (others : list string) :
  truthy aggregations = true ->
  get aggregations firstAgg h = inr VUndefined ->
  flatTermsAggregations response firstAgg others h = inl TypeError.
Proof.
  intros Ht Hagg. rewrite (walker_present others Ht).
  rewrite (bind_lift _ _ h VUndefined Hagg). by apply bind_lift_error.
Qed.

(** A call that returns without allocating has found the bucket list, and
    every path starts from that list. *)
Lemma walker_same_heap (pre : list string) (it : fluent) :
  flatTermsAggregations response firstAgg pre h = inr (it, h) ->
  ∃ buckets,
    it = fold_left descend pre (Fluent buckets) ∧
    ∀ others, flatTermsAggregations response firstAgg others h
              = inr (fold_left descend others (Fluent buckets), h).
Proof.
  intros Hrun. destruct (truthy aggregations) eqn:Ht.
  - rewrite (walker_present pre Ht) in Hrun.
    rewrite bind_run in Hrun. unfold lift at 1 in Hrun.
    destruct (get aggregations firstAgg h) as [e|agg] eqn:Hagg; [done|].
    rewrite bind_run in Hrun. unfold lift at 1 in Hrun.
    destruct (get agg "buckets" h) as [e|buckets] eqn:Hb; [done|].
    injection Hrun as <-. exists buckets. split; [done|].
    intros others. by apply walker_found with agg.
  - rewrite (walker_absent pre Ht) in Hrun. injection Hrun as _ Hh.
    apply (f_equal List.length) in Hh. rewrite length_app in Hh.
    simpl in Hh. lia.
Qed.
End Walker.

(** ** Traces *)

Lemma run_fluent_array (h : heap) (l : loc) (xs : list value) :
  h !! l = Some (HArr xs) -> run h (Fluent (VRef l)) = (xs, None).
Proof. intros Hl. simpl. by rewrite Hl. Qed.

Lemma run_descend (h : heap) (it : fluent) (name : string) :
  run h (descend it name)
  = pull h (fun x => y ← buckets_of name x; iterate y)
      (List.filter truthy (run h it).1) (run h it).2.
Proof. simpl. by destruct (run h it). Qed.

Lemma run_flatTopHits (h : heap) (it : fluent) (aggName : option string) :
  run h (flatTopHitsAggregation it aggName)
  = let hits := pull h (fun x => y ← hits_of (default "tops" aggName) x; iterate y)
                  (List.filter truthy (run h it).1) (run h it).2 in
    pull h (fun x => y ← get x "_source"; mret [y]) hits.1 hits.2.
Proof.
  simpl. destruct (run h it) as [xs e]. simpl.
  by destruct (pull h _ (List.filter truthy xs) e).
Qed.

Lemma pull_keeps_error (h : heap) (f : value -> R (list value))
    (xs : list value) (e : error) :
  fails (pull h f xs (Some e)).
Proof.
  induction xs as [|x xs IH]; simpl.
  - by exists e.
  - destruct (f x h) as [e'|ys]; [by exists e'|].
    destruct (pull h f xs (Some e)) as [zs e''] eqn:Hp. exact IH.
Qed.

Lemma pull_raises (h : heap) (f : value -> R (list value))
    (xs : list value) (e : option error) (x : value) (e' : error) :
  In x xs -> f x h = inl e' -> fails (pull h f xs e).
Proof.
  intros Hin Hx. induction xs as [|x' xs IH]; simpl; [done|].
  destruct (f x' h) as [e''|ys] eqn:Hx'; [by exists e''|].
  destruct Hin as [-> | Hin]; [congruence|].
  destruct (pull h f xs e) as [zs e''] eqn:Hp. by apply IH.
Qed.

Lemma descend_keeps_error (h : heap) (it : fluent) (name : string) :
  fails (run h it) -> fails (run h (descend it name)).
Proof.
  intros [e He]. rewrite run_descend, He. apply pull_keeps_error.
Qed.

Lemma walk_keeps_error (h : heap) (names : list string) (it : fluent) :
  fails (run h it) -> fails (run h (fold_left descend names it)).
Proof.
  revert it. induction names as [|name names IH]; intros it Hit; [done|].
  simpl. apply IH. by apply descend_keeps_error.
Qed.

Lemma missing_name_raises (h : heap) (name : string) (x : value) :
  get x name h = inr VUndefined ->
  (y ← buckets_of name x; iterate y) h = inl TypeError.
Proof.
  intros Hx. unfold buckets_of, mbind, R_bind. by rewrite Hx.
Qed.

Lemma descend_missing (h : heap) (it : fluent) (name : string) (x : value) :
  In x (run h it).1 -> truthy x = true -> get x name h = inr VUndefined ->
  fails (run h (descend it name)).
Proof.
  intros Hin Hx Hname. rewrite run_descend.
  apply pull_raises with x TypeError.
  - apply filter_In. by split.
  - by apply missing_name_raises.
Qed.

(** C10: when the response has an aggregations section and the first
    aggregation has the bucket list [bs], the walker called with no further
    name returns the sequence of the entries of [bs] as they are, the falsy
    ones too.  The falsy entries are discarded by the step for a further
    name, and by the top-hits unwrapper. *)
Theorem first_level_unfiltered (response : value) (firstAgg : string)
    (bs : list value) (h : heap) :
  has_buckets h response firstAgg bs ->
  ∃ it,
    flatTermsAggregations response firstAgg [] h = inr (it, h) ∧
    run h it = (bs, None) ∧
    (∀ name, ∃ it',
       flatTermsAggregations response firstAgg [name] h = inr (it', h) ∧
       run h it' = pull h (fun x => y ← buckets_of name x; iterate y)
                     (List.filter truthy bs) None) ∧
    (∀ aggName,
       let hits := pull h (fun x => y ← hits_of (default "tops" aggName) x; iterate y)
                     (List.filter truthy bs) None in
       run h (flatTopHitsAggregation it aggName)
       = pull h (fun x => y ← get x "_source"; mret [y]) hits.1 hits.2).
Proof.
  intros (body & aggs & agg & l & Hbody & Haggs & Ht & Hagg & Hb & Hl).
  exists (Fluent (VRef l)).
  pose proof (run_fluent_array h l bs Hl) as Hrun.
  split; [by apply (walker_found response firstAgg h body aggs Hbody Haggs [] agg)|].
  split; [done|]. split.
  - intros name. exists (descend (Fluent (VRef l)) name). split.
    + by apply (walker_found response firstAgg h body aggs Hbody Haggs [name] agg).
    + by rewrite run_descend, Hrun.
  - intros aggName. by rewrite run_flatTopHits, Hrun.
Qed.

Lemma falsy_buckets_found :
  has_buckets falsy_buckets_heap (VRef 5) "byCategory"
    [VNull; VRef 0; VNum (int 0)].
Proof.
  exists (VRef 4), (VRef 3), (VRef 2), 1. repeat split; reflexivity.
Defined.

Lemma first_level_unfiltered_witness :
  ∃ it,
    flatTermsAggregations (VRef 5) "byCategory" [] falsy_buckets_heap
    = inr (it, falsy_buckets_heap) ∧
    run falsy_buckets_heap it = ([VNull; VRef 0; VNum (int 0)], None).
Proof.
  destruct (first_level_unfiltered (VRef 5) "byCategory"
              [VNull; VRef 0; VNum (int 0)] falsy_buckets_heap
              falsy_buckets_found) as (it & Hcall & Hrun & _).
  exists it. split; [exact Hcall | exact Hrun].
Defined.

(** C3, as the spec has it, fails in its "exactly when": the response
    [{ body: { aggregations: { byCategory: { buckets: [] } } } }] has an
    aggregations section, and the walker returns the empty sequence for it,
    without an error. *)
Lemma empty_without_absence :
  ∃ response h aggregations it,
    eval no_bucket_response [] = inr (response, h) ∧
    (body ← get response "body"; get_opt body "aggregations") h
    = inr aggregations ∧
    truthy aggregations = true ∧
    flatTermsAggregations response "byCategory" [] h = inr (it, h) ∧
    run h it = ([], None).
Proof. eexists _, _, _, _. repeat split; vm_compute; reflexivity. Qed.

Lemma pull_all (h : heap) (f : value -> R (list value)) (xs : list value)
    (yss : list (list value)) (e : option error) :
  Forall2 (fun x ys => f x h = inr ys) xs yss ->
  pull h f xs e = (concat yss, e).
Proof.
  induction 1 as [|x ys xs yss Hx _ IH]; simpl; [done|].
  by rewrite Hx, IH.
Qed.

Lemma sub_buckets_run (h : heap) (name : string) (x : value)
    (ys : list value) :
  sub_buckets h name x ys ->
  (y ← buckets_of name x; iterate y) h = inr ys.
Proof.
  intros (sub & l & Hsub & Hb & Hl).
  unfold buckets_of, mbind, R_bind. rewrite Hsub, Hb. simpl. by rewrite Hl.
Qed.

Lemma descend_all (h : heap) (it : fluent) (name : string)
    (xs : list value) (yss : list (list value)) (e : option error) :
  run h it = (xs, e) ->
  Forall2 (sub_buckets h name) (List.filter truthy xs) yss ->
  run h (descend it name) = (concat yss, e).
Proof.
  intros Hrun Hall. rewrite run_descend, Hrun. simpl. apply pull_all.
  eapply Forall2_impl; [exact Hall|]. intros x ys. apply sub_buckets_run.
Qed.

Lemma walk_all (h : heap) (names : list string) (e : option error) :
  ∀ (it : fluent) (xs leaves : list value),
    run h it = (xs, e) -> walks h names xs leaves ->
    run h (fold_left descend names it) = (leaves, e).
Proof.
  induction names as [|name names IH]; intros it xs leaves Hrun Hw; simpl in *.
  - by subst.
  - destruct Hw as (yss & Hall & Hrest).
    apply IH with (concat yss); [|done]. by apply descend_all with xs.
Qed.

(** The callback raises on the first bucket for which it fails: what the
    buckets before it give has been handed over by then. *)
Lemma pull_stops (h : heap) (f : value -> R (list value))
    (good rest : list value) (x : value) (yss : list (list value))
    (e : error) (e0 : option error) :
  Forall2 (fun x' ys => f x' h = inr ys) good yss ->
  f x h = inl e ->
  pull h f (good ++ x :: rest) e0 = (concat yss, Some e).
Proof.
  intros Hgood Hx. induction Hgood as [|x' ys good yss Hx' _ IH]; simpl.
  - by rewrite Hx.
  - by rewrite Hx', IH.
Qed.

Lemma lacks_get (h : heap) (x : value) (name : string) :
  lacks h x name -> truthy x = true ∧ get x name h = inr VUndefined.
Proof.
  intros (_ & l & props & -> & Hl & Hnone). split; [done|].
  unfold get. rewrite Hl. simpl. by rewrite Hnone.
Qed.

(** C3, amended: the walker returns the empty sequence, and no error,
    whenever the aggregations section is absent or falsy (and also when
    there is no bucket to yield).  When the section is there and the first
    aggregation is missing in it, the call itself raises a TypeError, for
    every path.  When a further name is missing in a bucket that the walk
    over the names before it yields, the call returns, and consuming the
    sequence ends with an error: the buckets before that one have given
    their leaves by then, these are what the sequence yields, and then the
    TypeError is raised; the sequence never ends normally.  A name is
    missing in an object when it is neither an own property nor a member of
    [Object.prototype]. *)
Theorem walker_error_policy (response : value) (firstAgg : string)
    (others : list string) (h : heap) (body aggregations : value) :
  get response "body" h = inr body ->
  get_opt body "aggregations" h = inr aggregations ->
  (truthy aggregations = false ->
   ∃ it h', flatTermsAggregations response firstAgg others h = inr (it, h') ∧
            run h' it = ([], None)) ∧
  (lacks h aggregations firstAgg ->
   flatTermsAggregations response firstAgg others h = inl TypeError) ∧
  (∀ pre name post it0 xs e0 good x rest yss leaves,
     others = pre ++ name :: post ->
     flatTermsAggregations response firstAgg pre h = inr (it0, h) ->
     run h it0 = (xs, e0) ->
     List.filter truthy xs = good ++ x :: rest ->
     Forall2 (sub_buckets h name) good yss ->
     lacks h x name ->
     walks h post (concat yss) leaves ->
     ∃ it, flatTermsAggregations response firstAgg others h = inr (it, h) ∧
           run h it = (leaves, Some TypeError)) ∧
  (∀ pre name post it0 x,
     others = pre ++ name :: post ->
     flatTermsAggregations response firstAgg pre h = inr (it0, h) ->
     In x (run h it0).1 ->
     lacks h x name ->
     ∃ it, flatTermsAggregations response firstAgg others h = inr (it, h) ∧
           fails (run h it)).
Proof.
  intros Hbody Haggs. split; [|split; [|split]].
  - intros Hf. eexists _, _. split; [by eapply walker_absent|].
    simpl. by rewrite lookup_new_0.
  - intros Hlacks. destruct (lacks_get h aggregations firstAgg Hlacks).
    by eapply walker_missing.
  - intros pre name post it0 xs e0 good x rest yss leaves
      -> Hpre Hrun Hkept Hgood Hlacks Hwalk.
    destruct (walker_same_heap response firstAgg h body aggregations
                Hbody Haggs pre it0 Hpre) as (buckets & -> & Hall).
    eexists. split; [apply Hall|].
    rewrite fold_left_app. simpl. apply walk_all with (concat yss); [|done].
    rewrite run_descend, Hrun. simpl. rewrite Hkept. apply pull_stops.
    + eapply Forall2_impl; [exact Hgood|]. intros x' ys. apply sub_buckets_run.
    + apply missing_name_raises. by apply lacks_get.
  - intros pre name post it0 x -> Hpre Hin Hlacks.
    destruct (walker_same_heap response firstAgg h body aggregations
                Hbody Haggs pre it0 Hpre) as (buckets & -> & Hall).
    destruct (lacks_get h x name Hlacks) as [Hx Hname].
    eexists. split; [apply Hall|].
    rewrite fold_left_app. simpl. apply walk_keeps_error.
    by apply descend_missing with x.
Qed.

Lemma second_bucket_lacks : lacks half_nested_heap (VRef 3) "byBrand".
Proof.
  split; [reflexivity|]. exists 3, {["key" := VStr "b"]}.
  repeat split; reflexivity.
Defined.

Lemma walker_error_policy_witness :
  ∃ it,
    flatTermsAggregations (VRef 8) "byCategory" ["byBrand"] half_nested_heap
    = inr (it, half_nested_heap) ∧
    run half_nested_heap it = ([VStr "leaf"], Some TypeError).
Proof.
  destruct (walker_error_policy (VRef 8) "byCategory" ["byBrand"]
              half_nested_heap (VRef 7) (VRef 6))
    as (_ & _ & Hlazy & _); [reflexivity | reflexivity |].
  apply (Hlazy [] "byBrand" [] (Fluent (VRef 4)) [VRef 2; VRef 3] None
           [VRef 2] (VRef 3) [] [[VStr "leaf"]] [VStr "leaf"]);
    try reflexivity.
  - constructor; [|constructor]. exists (VRef 1), 0. repeat split; reflexivity.
  - exact second_bucket_lacks.
Defined.

(** The error of a missing name comes when the iteration reaches the bucket
    that lacks it: the leaf bucket of the bucket before it is handed over
    first. *)
Lemma leaf_before_error :
  ∃ response h it,
    eval half_nested_response [] = inr (response, h) ∧
    flatTermsAggregations response "byCategory" ["byBrand"] h = inr (it, h) ∧
    run h it = ([VStr "leaf"], Some TypeError).
Proof. eexists _, _, _. repeat split; vm_compute; reflexivity. Qed.

(** ** The end-to-end scenario *)

Lemma represents_record (h : heap) (l : loc) (k : string) (x : value) :
  h !! l = Some (HObj {[k := x]}) -> represents h (Obj [(k, Val x)]) (VRef l).
Proof.
  intros Hl. simpl. exists l, {[k := x]}. split; [done|]. split; [done|].
  split; [rewrite dom_singleton_L; simpl; by rewrite (right_id_L ∅ (∪))|].
  split; [|done]. exists x. split; [apply lookup_singleton_eq | done].
Qed.

(** C1, as the spec has it, fails: the walker reads the aggregations from
    [response.body], and the literal of the scenario, passed as the response
    itself, has no [body]; the result is the empty sequence. *)
Lemma scenario_without_body :
  ∃ response h it h',
    eval scenario_body [] = inr (response, h) ∧
    flatTermsAggregations response "byCategory" [] h = inr (it, h') ∧
    run h' (flatTopHitsAggregation it None) = ([], None).
Proof. eexists _, _, _, _. repeat split; vm_compute; reflexivity. Qed.

(** C1, amended: for the response whose [body] is the literal of the
    scenario, the walker with the first name ['byCategory'] and no further
    name, followed by the top-hits unwrapper with its default name, yields
    [{id:1}], [{id:2}], [{id:3}], bucket by bucket and hit by hit, and ends
    without an error. *)
Theorem scenario_three_records :
  ∃ response h it h' r1 r2 r3,
    eval (Obj [("body", scenario_body)]) [] = inr (response, h) ∧
    flatTermsAggregations response "byCategory" [] h = inr (it, h') ∧
    run h' (flatTopHitsAggregation it None) = ([r1; r2; r3], None) ∧
    represents h' (Obj [("id", num 1)]) r1 ∧
    represents h' (Obj [("id", num 2)]) r2 ∧
    represents h' (Obj [("id", num 3)]) r3.
Proof.
  eexists _, _, _, _, _, _, _.
  split; [vm_compute; reflexivity|]. split; [vm_compute; reflexivity|].
  split; [vm_compute; reflexivity|].
  repeat split; apply represents_record; vm_compute; reflexivity.
Qed.

(** * Further properties *)

(** ** Composition *)

Lemma returns_bind {A B : Type} (m : M A) (f : A -> M B) (h : heap)
    (P : A -> heap -> Prop) (Q : B -> heap -> Prop) :
  returns m h P ->
  (∀ a h', h `prefix_of` h' -> P a h' -> returns (f a) h' Q) ->
  returns (x ← m; f x) h Q.
Proof.
  intros (a & h1 & Hrun & Hpre & HP) Hf.
  destruct (Hf a h1 Hpre HP) as (b & h2 & Hrun2 & Hpre2 & HQ).
  exists b, h2. split; [by rewrite bind_run, Hrun|]. split; [|done].
  by etrans.
Qed.

Lemma represents_mono (h h' : heap) :
  h `prefix_of` h' -> ∀ e v, represents h e v -> represents h' e v.
Proof.
  intros Hpre. fix IH 1. intros [v'|props|elems] v; simpl.
  - done.
  - intros (l & m & -> & Hl & Hdom & Hall). exists l, m.
    split; [done|]. split; [by apply prefix_lookup with h|]. split; [done|].
    clear Hl Hdom. induction props as [|[k e'] ps IHps]; [done|].
    destruct Hall as [(v' & Hk & Hr) Hrest]. split.
    + exists v'. split; [done|]. by apply IH.
    + apply IHps. exact Hrest.
  - intros (l & vs & -> & Hl & Hall). exists l, vs.
    split; [done|]. split; [by apply prefix_lookup with h|].
    clear Hl. revert vs Hall.
    induction elems as [|e' es IHes]; intros [|v' vs] Hall; try done.
    destruct Hall as [Hr Hrest]. split; [by apply IH|]. by apply IHes.
Qed.

(** ** Arrays of any values *)

(** X1: on every array, [isIn] returns [undefined] exactly when no entry
    is defined; otherwise the terms fragment holds a new array, at a
    location that was free, with the entries other than [undefined] in
    their order, the falsy ones ([null], [0], ['']) too, and the array
    passed in is as it was. *)
Theorem isIn_keeps_defined_entries (field : string) (l : loc)
    (xs : list value) (h : heap) :
  h !! l = Some (HArr xs) ->
  returns (isIn field (VRef l)) h (fun r h' =>
    (r = VUndefined ↔ List.filter defined xs = []) ∧
    (List.filter defined xs ≠ [] ->
     h' !! List.length h = Some (HArr (List.filter defined xs)) ∧
     represents h' (Obj [("terms", Obj [(field, Val (VRef (List.length h)))])])
       r) ∧
    h' !! l = Some (HArr xs)).
Proof.
  intros Hl. unfold returns, isIn.
  change (negb (truthy (VRef l))) with false. cbv iota.
  rewrite bind_run, (elements_array h l xs Hl).
  rewrite bind_run. unfold alloc at 1. rewrite bind_run, elements_new.
  rewrite length_truthy.
  destruct (List.filter defined xs) as [|v vs] eqn:Hvs.
  - exists VUndefined, (h ++ [HArr []]). split; [done|].
    split; [by apply prefix_app_r|]. split; [done|]. split; [done|].
    by apply lookup_old.
  - run_builder. split; [done|]. split.
    + intros _. split; [heap_lookup | shape].
    + by apply lookup_old.
Qed.

Lemma isIn_keeps_defined_entries_witness :
  returns (isIn "tag" (VRef 0)) [HArr [VNull; VUndefined; VNum (int 0)]]
    (fun r h' =>
       h' !! 1 = Some (HArr [VNull; VNum (int 0)]) ∧
       represents h' (Obj [("terms", Obj [("tag", Val (VRef 1))])]) r).
Proof.
  eapply returns_impl.
  - apply (isIn_keeps_defined_entries "tag" 0 [VNull; VUndefined; VNum (int 0)]
             [HArr [VNull; VUndefined; VNum (int 0)]]).
    reflexivity.
  - intros r h' _ (_ & Hsome & _). apply Hsome. discriminate.
Defined.

Lemma andOr_drops_falsy (key : string) (l : loc) (xs : list value) (h : heap) :
  h !! l = Some (HArr xs) ->
  combinator_drops_falsy h xs key (andOr (VRef l) key).
Proof.
  intros Hl. unfold combinator_drops_falsy, returns, andOr.
  rewrite bind_run, (elements_array h l xs Hl).
  rewrite bind_run. unfold alloc at 1. rewrite bind_run, elements_new.
  destruct (List.filter truthy xs) as [|x [|y vs]] eqn:Hvs; cbn [List.length].
  - exists VUndefined, (h ++ [HArr []]). split; [done|].
    split; [by apply prefix_app_r|]. split; [done|]. split; [done|].
    simpl. lia.
  - rewrite first_of_new. exists x, (h ++ [HArr [x]]). split; [done|].
    split; [by apply prefix_app_r|]. split; [|split].
    + split; [|done]. intros ->.
      assert (In VUndefined (List.filter truthy xs)) as Hin
        by (rewrite Hvs; by left).
      apply filter_In in Hin. by destruct Hin.
    + by intros x' [= <-].
    + simpl. lia.
  - run_builder. split; [done|]. split; [done|]. intros _.
    split; [heap_lookup | shape].
Qed.

(** X2: on an array of any values, [and] and [or] drop every falsy item,
    not only [undefined]: the result is [undefined] exactly when no item is
    truthy, the only truthy item when there is one, and otherwise a wrapper
    whose list is the new array of the truthy items, never the array passed
    in. *)
Theorem and_or_drop_falsy (l : loc) (xs : list value) (h : heap) :
  h !! l = Some (HArr xs) ->
  combinator_drops_falsy h xs "must" (and (VRef l)) ∧
  combinator_drops_falsy h xs "should" (or (VRef l)).
Proof. intros Hl. split; by apply andOr_drops_falsy. Qed.

Lemma and_or_drop_falsy_witness :
  combinator_drops_falsy
    [HObj ∅; HArr [VNull; VRef 0; VNum (int 0); VStr "q"]]
    [VNull; VRef 0; VNum (int 0); VStr "q"] "must" (and (VRef 1)) ∧
  combinator_drops_falsy
    [HObj ∅; HArr [VNull; VRef 0; VNum (int 0); VStr "q"]]
    [VNull; VRef 0; VNum (int 0); VStr "q"] "should" (or (VRef 1)).
Proof.
  apply (and_or_drop_falsy 1 [VNull; VRef 0; VNum (int 0); VStr "q"]
           [HObj ∅; HArr [VNull; VRef 0; VNum (int 0); VStr "q"]]).
  reflexivity.
Defined.

(** ** What is not an array *)

Lemma elements_not_array (h : heap) (v : value) :
  not_array h v -> lift (elements v) h = inl TypeError.
Proof.
  unfold lift, elements. destruct v as [| | | | |l]; try done.
  intros [props ->]. done.
Qed.

(** X3: [and] and [or] raise a TypeError for anything that is not an
    array ([undefined] too); [isIn] raises it for a truthy value that is not
    an array and returns [undefined] for a falsy one. *)
Theorem arrays_required (field : string) (items : value) (h : heap) :
  not_array h items ->
  and items h = inl TypeError ∧
  or items h = inl TypeError ∧
  (truthy items = true -> isIn field items h = inl TypeError) ∧
  (truthy items = false -> isIn field items h = inr (VUndefined, h)).
Proof.
  intros Hna. pose proof (elements_not_array h items Hna) as He.
  split; [|split; [|split]].
  - unfold and, andOr. by rewrite bind_run, He.
  - unfold or, andOr. by rewrite bind_run, He.
  - intros Ht. unfold isIn. rewrite Ht. simpl. by rewrite bind_run, He.
  - intros Hf. unfold isIn. by rewrite Hf.
Qed.

Lemma arrays_required_witness :
  and (VRef 0) [HObj ∅] = inl TypeError ∧
  or (VRef 0) [HObj ∅] = inl TypeError ∧
  isIn "tag" (VRef 0) [HObj ∅] = inl TypeError.
Proof.
  destruct (arrays_required "tag" (VRef 0) [HObj ∅]) as (Hand & Hor & Hin & _).
  - exists ∅. reflexivity.
  - split; [exact Hand|]. split; [exact Hor|]. apply Hin. reflexivity.
Defined.

(** ** [select] and [nested] *)

(** X4: [select] and [nested] return [undefined] exactly for a falsy
    argument, whatever the path; otherwise they wrap the argument itself.
    An empty list of fields is truthy and is wrapped, where [isIn] returns
    [undefined] for an empty list. *)
Theorem select_nested_wrap (field path : string) (v : value) (l : loc)
    (h : heap) :
  (truthy v = false ->
   select v h = inr (VUndefined, h) ∧ nested path v h = inr (VUndefined, h)) ∧
  (truthy v = true ->
   returns (select v) h (fun r h' =>
     represents h' (Obj [("includes", Val v)]) r) ∧
   returns (nested path v) h (fun r h' =>
     represents h'
       (Obj [("nested", Obj [("path", Val (VStr path)); ("query", Val v)])])
       r)) ∧
  (h !! l = Some (HArr []) ->
   returns (select (VRef l)) h (fun r h' =>
     represents h' (Obj [("includes", Val (VRef l))]) r) ∧
   returns (isIn field (VRef l)) h (fun r _ => r = VUndefined)).
Proof.
  split; [|split].
  - intros Hv. unfold select, nested. by rewrite Hv.
  - intros Hv. unfold select, nested. rewrite Hv. split; run_builder; shape.
  - intros Hl. split.
    + unfold select. change (truthy (VRef l)) with true. cbv iota.
      run_builder. shape.
    + eapply returns_impl; [by apply isIn_array|]. simpl.
      intros r h' _ [H _]. auto.
Qed.

(** ** [topHits] without a size *)

Lemma get_valid (h : heap) (v : value) (k : string) :
  v ≠ VUndefined -> v ≠ VNull -> valid h v -> ∃ r, get v k h = inr r.
Proof.
  intros Hu Hn Hv. destruct v as [| |b|n|s|l]; try done; simpl.
  - by eexists.
  - by eexists.
  - destruct (String.eqb k "length"); [by eexists|].
    destruct (array_index k); by eexists.
  - destruct Hv as [o ->]. by eexists.
Qed.

Lemma paging_other (h : heap) (size skip count : value) :
  is_number size = false ->
  get size "0" h = inr skip -> get size "1" h = inr count ->
  paging size h = inr ([("from", Val skip); ("size", Val count)], h).
Proof.
  intros Hnum Hskip Hcount. unfold paging. rewrite Hnum.
  rewrite (bind_lift _ _ h skip Hskip). cbv beta.
  by rewrite (bind_lift _ _ h count Hcount).
Qed.

(** X5: [topHits] raises a TypeError when [size] is [undefined] or [null].
    For a number it returns a fragment with [size] alone beside [sort] and
    [_source]; for every other size, a fragment with [from], which is
    [size[0]], and [size], which is [size[1]] ([undefined] when the array is
    shorter).  [lastHit] always returns, with [size: 1] and no [from]. *)
Theorem topHits_needs_size (size sort fields : value) (h : heap) :
  (size = VUndefined ∨ size = VNull ->
   topHits size sort fields h = inl TypeError) ∧
  (is_number size = true ->
   returns (topHits size sort fields) h (fun r h' =>
     represents h'
       (Obj [("tops",
          Obj [("top_hits",
            Obj [("size", Val size);
                 ("sort", Val sort); ("_source", selected fields)])])])
       r)) ∧
  (is_number size = false ->
   size ≠ VUndefined -> size ≠ VNull -> valid h size ->
   ∃ skip count,
     get size "0" h = inr skip ∧
     get size "1" h = inr count ∧
     returns (topHits size sort fields) h (fun r h' =>
       represents h'
         (Obj [("tops",
            Obj [("top_hits",
              Obj [("from", Val skip); ("size", Val count);
                   ("sort", Val sort); ("_source", selected fields)])])])
         r)) ∧
  returns (lastHit sort fields) h (fun r h' =>
    represents h'
      (Obj [("tops",
         Obj [("top_hits",
           Obj [("size", num 1); ("sort", Val sort);
                ("_source", selected fields)])])])
      r).
Proof.
  split; [|split; [|split]].
  - by intros [-> | ->].
  - intros Hnum.
    apply (topHits_shape size sort fields [("size", Val size)] h).
    + unfold paging. by rewrite Hnum.
    + by left.
  - intros Hnum Hu Hn Hv.
    destruct (get_valid h size "0" Hu Hn Hv) as [skip Hskip].
    destruct (get_valid h size "1" Hu Hn Hv) as [count Hcount].
    exists skip, count. split; [done|]. split; [done|].
    apply (topHits_shape size sort fields
             [("from", Val skip); ("size", Val count)] h).
    + by apply paging_other.
    + right. by exists skip, count.
  - apply (topHits_shape (VNum (int 1)) sort fields [("size", num 1)] h).
    + reflexivity.
    + by left.
Qed.

(** ** Absent fragments in a list *)

Lemma gte_result (field : string) (a : value) (h : heap) :
  returns (gte field a) h (fun x h' =>
    if truthy a
    then (∃ l, x = VRef l) ∧
         represents h' (Obj [("range", Obj [(field, Obj [("gte", Val a)])])]) x
    else x = VUndefined).
Proof.
  unfold gte. destruct (truthy a).
  - run_builder. split; [by eexists | shape].
  - by exists VUndefined, h.
Qed.

Lemma lte_result (field : string) (b : value) (h : heap) :
  returns (lte field b) h (fun y h' =>
    if truthy b
    then (∃ l, y = VRef l) ∧
         represents h' (Obj [("range", Obj [(field, Obj [("lte", Val b)])])]) y
    else y = VUndefined).
Proof.
  unfold lte. destruct (truthy b).
  - run_builder. split; [by eexists | shape].
  - by exists VUndefined, h.
Qed.

Lemma and_of_list (xs : list value) (h : heap) :
  returns (items ← eval (Arr (Val <$> xs)); and items) h (fun r h' =>
    match List.filter truthy xs with
    | [] => r = VUndefined
    | [x] => r = x
    | vs => represents h' (Obj [("bool", Obj [("must", Arr (Val <$> vs))])]) r
    end).
Proof.
  assert (eval (Arr (Val <$> xs)) h
          = inr (VRef (List.length h), h ++ [HArr xs])) as Heval.
  { simpl. unfold mbind at 1, M_bind.
    assert (∀ h0, (fix eval_elems (es : list lit) : M (list value) :=
              match es with
              | [] => mret []
              | e' :: es' => v ← eval e'; vs ← eval_elems es'; mret (v :: vs)
              end) (Val <$> xs) h0 = inr (xs, h0)) as ->; [|done].
    induction xs as [|x xs IH]; intros h0; [done|].
    simpl. unfold mbind, M_bind, mret, M_ret in *. simpl. by rewrite IH. }
  apply returns_bind with (fun items h' =>
    items = VRef (List.length h) ∧ h' = h ++ [HArr xs]).
  - exists (VRef (List.length h)), (h ++ [HArr xs]). split; [done|].
    split; [by apply prefix_app_r | done].
  - intros items h' _ [-> ->]. apply andOr_array. by rewrite lookup_new_0.
Qed.

(** X6: absent fragments vanish from a list: [and([gte(f, a), lte(f, b)])]
    is [undefined] when both boundaries are falsy, the one range fragment,
    with its one boundary key and no wrapper, when one boundary is truthy,
    and [{ bool: { must: [..gte.., ..lte..] } }] when both are. *)
Theorem absent_fragments_compose (field : string) (a b : value) (h : heap) :
  returns (and_gte_lte field a b) h (fun r h' =>
    match truthy a, truthy b with
    | false, false => r = VUndefined
    | true, false =>
        represents h' (Obj [("range", Obj [(field, Obj [("gte", Val a)])])]) r
    | false, true =>
        represents h' (Obj [("range", Obj [(field, Obj [("lte", Val b)])])]) r
    | true, true =>
        ∃ x y,
          represents h' (Obj [("bool", Obj [("must", Arr [Val x; Val y])])]) r ∧
          represents h' (Obj [("range", Obj [(field, Obj [("gte", Val a)])])]) x ∧
          represents h' (Obj [("range", Obj [(field, Obj [("lte", Val b)])])]) y
    end).
Proof.
  unfold and_gte_lte.
  eapply returns_bind; [apply gte_result|]. intros x h1 _ Hx.
  eapply returns_bind; [apply lte_result|]. intros y h2 H12 Hy.
  eapply returns_impl; [apply (and_of_list [x; y] h2)|].
  intros r h' H2' Hr. simpl in Hr.
  destruct (truthy a), (truthy b).
  - destruct Hx as [[lx ->] Hx], Hy as [[ly ->] Hy]. simpl in Hr.
    exists (VRef lx), (VRef ly). split; [exact Hr|]. split.
    + apply represents_mono with h1; [by etrans | done].
    + by apply represents_mono with h2.
  - destruct Hx as [[lx ->] Hx]. subst y. simpl in Hr. subst r.
    apply represents_mono with h1; [by etrans | done].
  - destruct Hy as [[ly ->] Hy]. subst x. simpl in Hr. subst r.
    by apply represents_mono with h2.
  - by subst x y.
Qed.

(** ** The walk over a well-shaped response *)

Lemma walk_found (response : value) (firstAgg : string)
    (others : list string) (bs leaves : list value) (h : heap) :
  has_buckets h response firstAgg bs ->
  walks h others bs leaves ->
  ∃ it,
    flatTermsAggregations response firstAgg others h = inr (it, h) ∧
    run h it = (leaves, None).
Proof.
  intros (body & aggs & agg & l & Hbody & Haggs & Ht & Hagg & Hb & Hl) Hw.
  exists (fold_left descend others (Fluent (VRef l))). split.
  - by apply (walker_found response firstAgg h body aggs Hbody Haggs others agg).
  - apply walk_all with bs; [|done]. by apply run_fluent_array.
Qed.

(** X7: when the response has the bucket list [bs] under the first
    aggregation and every truthy bucket on the way has the aggregation of
    its level, the walker returns without touching the heap, and the
    sequence yields the buckets of the last level, parent by parent in
    order, and ends without an error; falsy buckets are skipped. *)
Theorem walker_flattens (response : value) (firstAgg : string)
    (others : list string) (bs leaves : list value) (h : heap) :
  has_buckets h response firstAgg bs ->
  walks h others bs leaves ->
  ∃ it,
    flatTermsAggregations response firstAgg others h = inr (it, h) ∧
    run h it = (leaves, None).
Proof. intros Hb Hw. by apply walk_found with bs. Qed.

Lemma two_level_found :
  has_buckets two_level_heap (VRef 12) "byCategory" [VRef 4; VNull; VRef 7].
Proof.
  exists (VRef 11), (VRef 10), (VRef 9), 8. repeat split; reflexivity.
Defined.

Lemma two_level_walk :
  walks two_level_heap ["byBrand"] [VRef 4; VNull; VRef 7]
    [VRef 0; VRef 1; VRef 1].
Proof.
  exists [[VRef 0; VRef 1]; [VRef 1]]. split; [|reflexivity].
  constructor; [|constructor; [|constructor]].
  - exists (VRef 3), 2. repeat split; reflexivity.
  - exists (VRef 6), 5. repeat split; reflexivity.
Defined.

Lemma walker_flattens_witness :
  ∃ it,
    flatTermsAggregations (VRef 12) "byCategory" ["byBrand"] two_level_heap
    = inr (it, two_level_heap) ∧
    run two_level_heap it = ([VRef 0; VRef 1; VRef 1], None).
Proof.
  exact (walker_flattens (VRef 12) "byCategory" ["byBrand"]
           [VRef 4; VNull; VRef 7] [VRef 0; VRef 1; VRef 1] two_level_heap
           two_level_found two_level_walk).
Defined.

(** ** The top-hits unwrapper on well-shaped buckets *)

Lemma pull_sources (h : heap) (envelopes sources rest : list value)
    (e : option error) :
  Forall2 (fun envelope source => get envelope "_source" h = inr source)
    envelopes sources ->
  pull h (fun x => y ← get x "_source"; mret [y]) (envelopes ++ rest) e
  = (sources ++ (pull h (fun x => y ← get x "_source"; mret [y]) rest e).1,
     (pull h (fun x => y ← get x "_source"; mret [y]) rest e).2).
Proof.
  induction 1 as [|envelope source envelopes sources Hs _ IH]; simpl.
  - by destruct (pull h _ rest e).
  - unfold mbind at 1, R_bind at 1. rewrite Hs. simpl. by rewrite IH.
Qed.

Lemma unwrap_all (h : heap) (name : string) (xs : list value)
    (sss : list (list value)) :
  Forall2 (hit_sources h name) xs sss ->
  let hits := pull h (fun x => y ← hits_of name x; iterate y) xs None in
  pull h (fun x => y ← get x "_source"; mret [y]) hits.1 hits.2
  = (concat sss, None).
Proof.
  induction 1 as [|x sources xs sss Hx _ IH]; simpl; [done|].
  destruct Hx as (agg & hits & l & envelopes & Hagg & Hhits & Hh & Hl & Hs).
  assert ((y ← hits_of name x; iterate y) h = inr envelopes) as ->.
  { unfold hits_of, mbind, R_bind. rewrite Hagg, Hhits, Hh. simpl.
    by rewrite Hl. }
  destruct (pull h _ xs None) as [zs e'] eqn:Hp. simpl in *.
  rewrite (pull_sources h envelopes sources zs e' Hs). by rewrite IH.
Qed.

Lemma unwrap_run (it : fluent) (aggName : option string)
    (xs : list value) (sss : list (list value)) (h : heap) :
  run h it = (xs, None) ->
  Forall2 (hit_sources h (default "tops" aggName)) (List.filter truthy xs) sss ->
  run h (flatTopHitsAggregation it aggName) = (concat sss, None).
Proof.
  intros Hrun Hall. rewrite run_flatTopHits, Hrun. simpl.
  by apply unwrap_all.
Qed.

(** X8: when every truthy entry of a sequence has the top-hits
    aggregation with a list of hits, the unwrapper yields the [_source] of
    every hit, bucket by bucket and hit by hit, [undefined] for a hit
    without [_source], and ends without an error. *)
Theorem unwrapper_flattens (it : fluent) (aggName : option string)
    (xs : list value) (sss : list (list value)) (h : heap) :
  run h it = (xs, None) ->
  Forall2 (hit_sources h (default "tops" aggName)) (List.filter truthy xs) sss ->
  run h (flatTopHitsAggregation it aggName) = (concat sss, None).
Proof. intros Hrun Hall. by apply unwrap_run with xs. Qed.

Lemma top_hits_sources :
  Forall2 (hit_sources top_hits_heap "tops") [VRef 9; VRef 10]
    [[VRef 0]; [VRef 0; VUndefined]].
Proof.
  constructor; [|constructor; [|constructor]].
  - exists (VRef 7), (VRef 5), 3, [VRef 1]. repeat split; try reflexivity.
    constructor; [reflexivity | constructor].
  - exists (VRef 8), (VRef 6), 4, [VRef 1; VRef 2].
    repeat split; try reflexivity.
    constructor; [reflexivity|].
    constructor; [reflexivity | constructor].
Defined.

Lemma unwrapper_flattens_witness :
  run top_hits_heap (flatTopHitsAggregation (Fluent (VRef 11)) None)
  = ([VRef 0; VRef 0; VUndefined], None).
Proof.
  exact (unwrapper_flattens (Fluent (VRef 11)) None [VRef 9; VNull; VRef 10]
           [[VRef 0]; [VRef 0; VUndefined]] top_hits_heap eq_refl
           top_hits_sources).
Defined.

(** ** [orderBy] *)

Lemma order_objects_run (orders : list OrderField) (h : heap) :
  order_objects orders h
  = inr (VRef <$> seq (List.length h) (List.length orders),
         h ++ (order_cell <$> orders)).
Proof.
  revert h. induction orders as [|[field order] rest IH]; intros h.
  - simpl. by rewrite app_nil_r.
  - cbn [order_objects]. rewrite bind_run.
    assert (eval (Obj [(field, Val (order_value order))]) h
            = inr (VRef (List.length h), h ++ [order_cell (field, order)]))
      as -> by reflexivity.
    rewrite bind_run, IH. simpl. rewrite length_app, <- app_assoc. simpl.
    by rewrite Nat.add_1_r.
Qed.

Lemma represents_orders (h : heap) (orders : list OrderField) (i l : nat) :
  h !! l = Some (HArr (VRef <$> seq i (List.length orders))) ->
  (∀ j fo, orders !! j = Some fo -> h !! (i + j) = Some (order_cell fo)) ->
  represents h (Arr (order_shape <$> orders)) (VRef l).
Proof.
  intros Hl Hcells. simpl. eexists _, _. split; [done|]. split; [done|].
  clear Hl. revert i Hcells.
  induction orders as [|fo rest IH]; intros i Hcells; simpl; [done|]. split.
  - apply represents_record. specialize (Hcells 0 fo eq_refl).
    by rewrite Nat.add_0_r in Hcells.
  - apply IH. intros j fo' Hj. specialize (Hcells (S j) fo' Hj).
    by rewrite Nat.add_succ_r in Hcells.
Qed.

Lemma elements_read (h : heap) (l : loc) (xs : list value) :
  h !! l = Some (HArr xs) -> elements (VRef l) h = inr xs.
Proof. intros Hl. unfold elements. by rewrite Hl. Qed.

(** X9: [orderBy] returns a new array with one object per pair, in the
    order of the pairs, each with the field as its only key and the
    direction as its value; the array is as long as the input, empty for no
    pair (never [undefined]). *)
Theorem orderBy_keeps_order (orders : list OrderField) (h : heap) :
  returns (orderBy orders) h (fun r h' =>
    represents h' (Arr (order_shape <$> orders)) r ∧
    ∃ os, elements r h' = inr os ∧ List.length os = List.length orders).
Proof.
  unfold returns, orderBy. rewrite bind_run, order_objects_run.
  unfold alloc. eexists _, _. split; [reflexivity|]. split.
  { rewrite <- app_assoc. by apply prefix_app_r. }
  assert (((h ++ (order_cell <$> orders)) ++
           [HArr (VRef <$> seq (List.length h) (List.length orders))])
          !! List.length (h ++ (order_cell <$> orders))
          = Some (HArr (VRef <$> seq (List.length h) (List.length orders))))
    as Hl by (by rewrite lookup_new_0).
  split.
  - apply represents_orders with (List.length h); [done|].
    intros j fo Hj. rewrite <- app_assoc, lookup_new.
    apply lookup_app_l_Some. by rewrite list_lookup_fmap, Hj.
  - eexists. split.
    + exact (elements_read _ _ _ Hl).
    + by rewrite length_fmap, length_seq.
Qed.

(** ** Grouping *)



(** ** Queries *)

Section QueryProofs.
Variable search : value -> M value.
Variables (params : value) (firstAgg : string) (others : list string).
Variables (h h1 : heap) (response : value).

Lemma search_then {A : Type} (f : value -> M A) :
  search params h = inr (response, h1) ->
  (x ← search params; f x) h = f response h1.
Proof. intros Hs. by rewrite bind_run, Hs. Qed.

Lemma grouping_run :
  search params h = inr (response, h1) ->
  runGroupingQuery search params firstAgg others h
  = flatTermsAggregations response firstAgg others h1.
Proof. apply search_then. Qed.

Lemma top_hits_run (it : fluent) (h2 : heap) :
  search params h = inr (response, h1) ->
  flatTermsAggregations response firstAgg others h1 = inr (it, h2) ->
  runTopHitsQuery search params firstAgg others h
  = inr (flatTopHitsAggregation it None, h2).
Proof.
  intros Hs Hw. unfold runTopHitsQuery. rewrite (search_then _ Hs).
  by rewrite bind_run, Hw.
Qed.
End QueryProofs.

(** X12: an error raised by the client comes out of the three query
    functions as it is; nothing in them catches it. *)
Theorem client_failure_propagates (search : value -> M value)
    (params : value) (firstAgg : string) (others : list string) (h : heap)
    (e : error) :
  search params h = inl e ->
  runGroupingQuery search params firstAgg others h = inl e ∧
  runTopHitsQuery search params firstAgg others h = inl e ∧
  runSimplesQuery search params h = inl e.
Proof.
  intros Hs. unfold runGroupingQuery, runTopHitsQuery, runSimplesQuery.
  by rewrite !bind_run, Hs.
Qed.

Lemma client_failure_propagates_witness :
  runGroupingQuery (fun _ _ => inl TypeError) VUndefined "byCategory" [] []
  = inl TypeError ∧
  runTopHitsQuery (fun _ _ => inl TypeError) VUndefined "byCategory" [] []
  = inl TypeError ∧
  runSimplesQuery (fun _ _ => inl TypeError) VUndefined [] = inl TypeError.
Proof.
  apply (client_failure_propagates (fun _ _ => inl TypeError) VUndefined
           "byCategory" [] [] TypeError).
  reflexivity.
Defined.

(** X13: for a response without a body ([undefined] or [null]),
    [runGroupingQuery] and [runTopHitsQuery] return the empty sequence,
    whatever the path, while [runSimplesQuery] raises a TypeError. *)
Theorem body_is_optional_for_aggregations (search : value -> M value)
    (params : value) (firstAgg : string) (others : list string)
    (h h1 : heap) (response body : value) :
  search params h = inr (response, h1) ->
  get response "body" h1 = inr body ->
  body = VUndefined ∨ body = VNull ->
  (∃ it h2, runGroupingQuery search params firstAgg others h = inr (it, h2) ∧
            run h2 it = ([], None)) ∧
  (∃ it h2, runTopHitsQuery search params firstAgg others h = inr (it, h2) ∧
            run h2 it = ([], None)) ∧
  runSimplesQuery search params h = inl TypeError.
Proof.
  intros Hs Hbody Hnone.
  assert (get_opt body "aggregations" h1 = inr VUndefined) as Haggs
    by (by destruct Hnone as [-> | ->]).
  pose proof (walker_absent response firstAgg h1 body VUndefined Hbody Haggs
                others eq_refl) as Hw.
  split; [|split].
  - eexists _, _. split; [by rewrite (grouping_run _ _ _ _ _ _ _ Hs)|].
    simpl. by rewrite lookup_new_0.
  - eexists _, _. split; [by apply top_hits_run with h1 response|].
    simpl. by rewrite lookup_new_0.
  - unfold runSimplesQuery. rewrite (search_then _ _ _ _ _ _ Hs).
    rewrite (bind_lift _ _ h1 body Hbody). apply bind_lift_error.
    by destruct Hnone as [-> | ->].
Qed.

Lemma body_is_optional_for_aggregations_witness :
  (∃ it h2, runTopHitsQuery (fun _ h => inr (VRef 0, h ++ [HObj ∅])) VUndefined
              "byCategory" ["byBrand"] [] = inr (it, h2) ∧
            run h2 it = ([], None)) ∧
  runSimplesQuery (fun _ h => inr (VRef 0, h ++ [HObj ∅])) VUndefined []
  = inl TypeError.
Proof.
  destruct (body_is_optional_for_aggregations
              (fun _ h => inr (VRef 0, h ++ [HObj ∅])) VUndefined
              "byCategory" ["byBrand"] [] [HObj ∅] (VRef 0) VUndefined)
    as (_ & Htop & Hsimple); [reflexivity | reflexivity | left; reflexivity |].
  split; [exact Htop | exact Hsimple].
Defined.

(** X14: [runSimplesQuery] yields the [_source] of every entry of
    [body.hits.hits] in order, [undefined] for an entry without one; the
    entries are not filtered, and a [null] or [undefined] entry ends the
    iteration with an error. *)
Theorem simple_query_sources (search : value -> M value) (params : value)
    (h h1 : heap) (response body hits : value) (l : loc)
    (envelopes : list value) :
  search params h = inr (response, h1) ->
  get response "body" h1 = inr body ->
  get body "hits" h1 = inr hits ->
  get hits "hits" h1 = inr (VRef l) ->
  h1 !! l = Some (HArr envelopes) ->
  ∃ it,
    runSimplesQuery search params h = inr (it, h1) ∧
    (∀ sources,
       Forall2 (fun envelope source => get envelope "_source" h1 = inr source)
         envelopes sources ->
       run h1 it = (sources, None)) ∧
    (In VNull envelopes ∨ In VUndefined envelopes -> fails (run h1 it)).
Proof.
  intros Hs Hbody Hhits Hh Hl. eexists. split; [|split].
  - unfold runSimplesQuery. rewrite (search_then _ _ _ _ _ _ Hs).
    rewrite (bind_lift _ _ h1 body Hbody). cbv beta.
    rewrite (bind_lift _ _ h1 hits Hhits). cbv beta.
    by rewrite (bind_lift _ _ h1 (VRef l) Hh).
  - intros sources Hall. simpl. rewrite Hl.
    pose proof (pull_sources h1 envelopes sources [] None Hall) as Hp.
    rewrite app_nil_r in Hp. rewrite Hp. simpl. by rewrite app_nil_r.
  - intros Hin. simpl. rewrite Hl.
    destruct Hin as [Hin | Hin];
      by eapply pull_raises; [exact Hin | reflexivity].
Qed.

Lemma simple_query_sources_witness :
  ∃ it,
    runSimplesQuery (fun _ _ => inr (VRef 15, response_heap)) VUndefined []
    = inr (it, response_heap) ∧
    run response_heap it = ([VRef 0; VUndefined], None).
Proof.
  destruct (simple_query_sources (fun _ _ => inr (VRef 15, response_heap))
              VUndefined [] response_heap (VRef 15) (VRef 14) (VRef 6) 4
              [VRef 1; VRef 2])
    as (it & Hcall & Hrun & _); [reflexivity..|].
  exists it. split; [exact Hcall|]. apply Hrun.
  constructor; [reflexivity|]. constructor; [reflexivity | constructor].
Defined.

(** X15: [runTopHitsQuery] on a well-shaped response, however deep the
    path: the sequence yields the [_source] of the hits under [tops] of the
    buckets of the last level, in bucket-then-hit order, as many as there
    are hits, and ends without an error. *)
Theorem top_hits_query_flattens (search : value -> M value) (params : value)
    (firstAgg : string) (others : list string) (h h1 : heap)
    (response : value) (bs leaves : list value) (sss : list (list value)) :
  search params h = inr (response, h1) ->
  has_buckets h1 response firstAgg bs ->
  walks h1 others bs leaves ->
  Forall2 (hit_sources h1 "tops") (List.filter truthy leaves) sss ->
  ∃ it,
    runTopHitsQuery search params firstAgg others h = inr (it, h1) ∧
    run h1 it = (concat sss, None) ∧
    List.length (concat sss) = sum_list (List.length <$> sss).
Proof.
  intros Hs Hb Hw Hall.
  destruct (walk_found response firstAgg others bs leaves h1 Hb Hw)
    as (it & Hcall & Hrun).
  exists (flatTopHitsAggregation it None). split; [|split].
  - by apply top_hits_run with h1 response.
  - by apply unwrap_run with leaves.
  - clear. induction sss as [|ss sss IH]; simpl; [done|].
    by rewrite length_app, IH.
Qed.

Lemma response_found :
  has_buckets response_heap (VRef 15) "byCategory" [VRef 9; VNull; VRef 10].
Proof.
  exists (VRef 14), (VRef 13), (VRef 12), 11. repeat split; reflexivity.
Defined.

Lemma response_sources :
  Forall2 (hit_sources response_heap "tops") [VRef 9; VRef 10]
    [[VRef 0]; [VRef 0; VUndefined]].
Proof.
  constructor; [|constructor; [|constructor]].
  - exists (VRef 7), (VRef 5), 3, [VRef 1]. repeat split; try reflexivity.
    constructor; [reflexivity | constructor].
  - exists (VRef 8), (VRef 6), 4, [VRef 1; VRef 2].
    repeat split; try reflexivity.
    constructor; [reflexivity|]. constructor; [reflexivity | constructor].
Defined.

Lemma top_hits_query_flattens_witness :
  ∃ it,
    runTopHitsQuery (fun _ _ => inr (VRef 15, response_heap)) VUndefined
      "byCategory" [] [] = inr (it, response_heap) ∧
    run response_heap it = ([VRef 0; VRef 0; VUndefined], None).
Proof.
  destruct (top_hits_query_flattens (fun _ _ => inr (VRef 15, response_heap))
              VUndefined "byCategory" [] [] response_heap (VRef 15)
              [VRef 9; VNull; VRef 10] [VRef 9; VNull; VRef 10]
              [[VRef 0]; [VRef 0; VUndefined]] eq_refl response_found eq_refl
              response_sources) as (it & Hcall & Hrun & _).
  exists it. split; [exact Hcall | exact Hrun].
Defined.

(** ** Errors of the top-hits unwrapper *)

Lemma missing_hits_raise (h : heap) (name : string) (x : value) :
  get x name h = inr VUndefined ->
  (y ← hits_of name x; iterate y) h = inl TypeError.
Proof. intros Hx. unfold hits_of, mbind, R_bind. by rewrite Hx. Qed.

(** X16: the top-hits unwrapper hands on an error of the sequence it
    unwraps, and the iteration ends with an error when a truthy entry has no
    aggregation of the name that is read (['tops'] by default). *)
Theorem unwrapper_error_policy (it : fluent) (aggName : option string)
    (h : heap) :
  (fails (run h it) -> fails (run h (flatTopHitsAggregation it aggName))) ∧
  (∀ x, In x (run h it).1 -> truthy x = true ->
        get x (default "tops" aggName) h = inr VUndefined ->
        fails (run h (flatTopHitsAggregation it aggName))).
Proof.
  split.
  - intros [e He]. rewrite run_flatTopHits, He. simpl.
    destruct (pull_keeps_error h
                (fun x => y ← hits_of (default "tops" aggName) x; iterate y)
                (List.filter truthy (run h it).1) e) as [e' He'].
    rewrite He'. apply pull_keeps_error.
  - intros x Hin Hx Hname. rewrite run_flatTopHits. simpl.
    destruct (pull_raises h
                (fun x => y ← hits_of (default "tops" aggName) x; iterate y)
                (List.filter truthy (run h it).1) (run h it).2 x TypeError)
      as [e' He'].
    + apply filter_In. by split.
    + by apply missing_hits_raise.
    + rewrite He'. apply pull_keeps_error.
Qed.
